(* ===================================================================== *)
(* cvgen: the controlled-vocabulary code generator of ProteoWizard and   *)
(* the lookup code it emits (cv.hpp / cv.cpp).                           *)
(*                                                                       *)
(* Source: scripts/release/upload_packages (the cvgen.cpp part).         *)
(* The generator is modelled as pure functions from the parsed OBO       *)
(* files to the emitted tables; the emitted runtime accessors are        *)
(* modelled as explicit state passing over the process-wide maps         *)
(* (initialized_, infoMap_, cvMap_, cvids_).                             *)
(* ===================================================================== *)

From Stdlib Require Import ZArith Lia Bool.
From stdpp Require Import base gmap strings list.
From Stdlib Require Import Ascii.

Open Scope Z_scope.

(* --------------------------------------------------------------------- *)
(* Parsed OBO data (obo.hpp: struct Term, struct OBO)                    *)
(* --------------------------------------------------------------------- *)

Module Term.
(** struct Term: the fields cvgen reads.  Term::id_type is unsigned. *)
Record t := mk {
  prefix : string;
  id : N;
  name : string;
  def : string;
  parentsIsA : list N;
  parentsPartOf : list N;
  exactSynonyms : list string
}.
End Term.

Module OBO.
(** struct OBO: one parsed input file. *)
Record t := mk {
  filename : string;
  prefix : string;
  header : list string;
  terms : list Term.t
}.
End OBO.

(* --------------------------------------------------------------------- *)
(* Identifier allocation                                                 *)
(* --------------------------------------------------------------------- *)

(** [size_t] arithmetic on the 64-bit targets: results wrap modulo 2^64. *)
Definition size_t_modulus : Z := 2 ^ 64.

(** const size_t enumBlockSize_ = 100000000; *)
Definition enumBlockSize_ : Z := 100000000.

(** size_t enumValue(const Term& term, size_t index)
      { return term.id + (enumBlockSize_ * index); }
    written over the term id and the namespace index. *)
Definition enumValue_id (termid : Z) (index : Z) : Z :=
  (termid + (enumBlockSize_ * index) mod size_t_modulus) mod size_t_modulus.

Definition enumValue (term : Term.t) (index : nat) : Z :=
  enumValue_id (Z.of_N (Term.id term)) (Z.of_nat index).

(** The namespace index is the position of the file among argv[1..argc-1]
    (main pushes one OBO per argument), so it is below INT_MAX. *)
Definition max_namespaces : Z := 2 ^ 31 - 1.

(** The inverse described in the spec (section 4.3): division and modulo
    against the same block size.  It is not part of the emitted code. *)
Definition deallocate (code : Z) : Z * Z :=
  (code / enumBlockSize_, code mod enumBlockSize_).

(* --------------------------------------------------------------------- *)
(* Strings                                                               *)
(* --------------------------------------------------------------------- *)

Definition bs_char : ascii := "\"%char.

(** The first [n] characters dropped. *)
Fixpoint str_drop (n : nat) (s : string) : string :=
  match n, s with
  | O, _ => s
  | S _, EmptyString => EmptyString
  | S n', String _ rest => str_drop n' rest
  end.

(** boost::algorithm::replace_all(input, search, format): every
    non-overlapping occurrence of [search], scanned from the left, is
    replaced by [format]; an empty [search] finds nothing.  The fuel is
    the input length, which bounds the number of steps. *)
Fixpoint replace_all_fuel (fuel : nat) (search fmt s : string) : string :=
  match fuel with
  | O => s
  | S f =>
      match s with
      | EmptyString => EmptyString
      | String c rest =>
          if String.prefix search s
          then String.append fmt
                 (replace_all_fuel f search fmt (str_drop (String.length search) s))
          else String c (replace_all_fuel f search fmt rest)
      end
  end.

Definition replace_all (s search fmt : string) : string :=
  if String.eqb search "" then s
  else replace_all_fuel (String.length s) search fmt s.

(** Two-character string: a backslash followed by [c]. *)
Definition bs1 (c : ascii) : string := String bs_char (String c EmptyString).
(** Three-character string: two backslashes followed by [c]. *)
Definition bs2 (c : ascii) : string := String bs_char (bs1 c).

(** string escape_copy(const string& str): the nine bal::replace_all
    calls, in the order of the source. *)
Definition escape_copy (str : string) : string :=
  let copy := str in
  let copy := replace_all copy (bs1 "!") (bs2 "!") in
  let copy := replace_all copy (bs1 ":") (bs2 ":") in
  let copy := replace_all copy (bs1 ",") (bs2 ",") in
  let copy := replace_all copy (bs1 "(") (bs2 "(") in
  let copy := replace_all copy (bs1 ")") (bs2 ")") in
  let copy := replace_all copy (bs1 "[") (bs2 "[") in
  let copy := replace_all copy (bs1 "]") (bs2 "]") in
  let copy := replace_all copy (bs1 "{") (bs2 "{") in
  let copy := replace_all copy (bs1 "}") (bs2 "}") in
  copy.

(** The characters whose backslash escape escape_copy doubles, in the
    order of its replace_all calls. *)
Definition obo_escape_chars : list ascii :=
  ["!"; ":"; ","; "("; ")"; "["; "]"; "{"; "}"]%char.

Definition obo_escaped (c : ascii) : bool := existsb (Ascii.eqb c) obo_escape_chars.

(** One left-to-right pass: every backslash immediately followed by a
    character satisfying [P] gets a second backslash in front of it. *)
Fixpoint double_escapes (P : ascii -> bool) (s : string) : string :=
  match s with
  | EmptyString => EmptyString
  | String c rest =>
      if Ascii.eqb c bs_char &&
         match rest with String d _ => P d | EmptyString => false end
      then String bs_char (String bs_char (double_escapes P rest))
      else String c (double_escapes P rest)
  end.

(** Whether the first character satisfies [P]. *)
Definition hd_sat (P : ascii -> bool) (s : string) : bool :=
  match s with String d _ => P d | EmptyString => false end.

(** isalnum in the C locale. *)
Definition isalnum (a : ascii) : bool :=
  let n := Ascii.nat_of_ascii a in
  (Nat.leb 48 n && Nat.leb n 57) || (Nat.leb 65 n && Nat.leb n 90) ||
  (Nat.leb 97 n && Nat.leb n 122).

(** inline char toAllowableChar(char a) *)
Definition toAllowableChar (a : ascii) : ascii :=
  if isalnum a then a else "_"%char.

Fixpoint string_map (f : ascii -> ascii) (s : string) : string :=
  match s with
  | EmptyString => EmptyString
  | String c rest => String (f c) (string_map f rest)
  end.

(** string enumName(const string& prefix, const string& name) *)
Definition enumName (prefix name : string) : string :=
  String.append prefix (String.append "_" (string_map toAllowableChar name)).

(** setw(7) << setfill('0'): left-pad with '0' to at least 7 characters. *)
Definition pad7 (s : string) : string :=
  String.append (String.concat "" (repeat "0" (7 - String.length s))) s.

(** The decimal text of an unsigned number (operator<< on an integer). *)
Fixpoint decimal_digits (fuel : nat) (n : N) (acc : string) : string :=
  match fuel with
  | O => acc
  | S f =>
      let d := String (Ascii.ascii_of_N (48 + N.modulo n 10)%N) EmptyString in
      let acc' := String.append d acc in
      if N.ltb n 10 then acc' else decimal_digits f (N.div n 10) acc'
  end.

Definition decimal (n : N) : string := decimal_digits (N.to_nat (N.log2 n) + 1) n "".

(* --------------------------------------------------------------------- *)
(* The emitted tables (writeHpp, writeCpp)                               *)
(* --------------------------------------------------------------------- *)

Module TermInfo.
(** struct TermInfo { CVID cvid; const char* id, *name, *def; }; the
    strings are the text between the quotes of the emitted literals. *)
Record t := mk { cvid : Z; id : string; name : string; def : string }.
End TermInfo.

(** The value of CVID_Unknown. *)
Definition CVID_Unknown : Z := -1.

(** The first termInfos_ row: CVID_Unknown, ??:0000000, CVID_Unknown,
    CVID_Unknown. *)
Definition unknownRow : TermInfo.t :=
  TermInfo.mk CVID_Unknown "??:0000000" "CVID_Unknown" "CVID_Unknown".

(** The id column: prefix ":" setw(7) setfill('0') id. *)
Definition idString (t : Term.t) : string :=
  String.append (Term.prefix t) (String.append ":" (pad7 (decimal (Term.id t)))).

(** One termInfos_ row; the enumerator name enumName( *it ) denotes the
    value enumValue( *it, index) it was declared with in the enum. *)
Definition termInfoRow (index : nat) (t : Term.t) : TermInfo.t :=
  TermInfo.mk (enumValue t index) (idString t)
    (escape_copy (Term.name t)) (escape_copy (Term.def t)).

Fixpoint termInfoRowsFrom (index : nat) (obos : list OBO.t) : list TermInfo.t :=
  match obos with
  | [] => []
  | obo :: rest =>
      map (termInfoRow index) (OBO.terms obo) ++ termInfoRowsFrom (S index) rest
  end.

(** const TermInfo termInfos_[] *)
Definition termInfos_ (obos : list OBO.t) : list TermInfo.t :=
  unknownRow :: termInfoRowsFrom 0 obos.

(** termMaps[index]: map<Term::id_type, const Term*>, later terms with the
    same id overwrite earlier ones. *)
Definition termMap (obo : OBO.t) : gmap N Term.t :=
  foldl (fun m t => <[Term.id t := t]> m) ∅ (OBO.terms obo).

(** The rows of relationsIsA_ (sel = parentsIsA) or relationsPartOf_
    (sel = parentsPartOf).  termMaps[index][ *jt] on a missing id yields a
    null pointer that is dereferenced: the generator fails (None). *)
Fixpoint relationRowsFrom (sel : Term.t -> list N) (index : nat)
    (obos : list OBO.t) : option (list (Z * Z)) :=
  match obos with
  | [] => Some []
  | obo :: rest =>
      let tm := termMap obo in
      rows ← mapM (fun t =>
                 mapM (fun j => p ← tm !! j; Some (enumValue t index, enumValue p index))
                      (sel t)) (OBO.terms obo);
      rows_rest ← relationRowsFrom sel (S index) rest;
      Some (concat rows ++ rows_rest)
  end.

Fixpoint synonymRowsFrom (index : nat) (obos : list OBO.t) : list (Z * string) :=
  match obos with
  | [] => []
  | obo :: rest =>
      concat (map (fun t => map (fun syn => (enumValue t index, syn))
                                (Term.exactSynonyms t)) (OBO.terms obo))
      ++ synonymRowsFrom (S index) rest
  end.

(** CVIDStringPair relationsExactSynonym_[]: a row for CVID_Unknown, then
    one row per exact synonym of every term of every OBO. *)
Definition relationsExactSynonym_ (obos : list OBO.t) : list (Z * string) :=
  (CVID_Unknown, "Unknown") :: synonymRowsFrom 0 obos.

(** The enumerators of enum CVID emitted by writeHpp, as (name, value);
    a synonym enumerator "= enumName( *it )" has the value of its term. *)
Fixpoint enumEntriesFrom (index : nat) (obos : list OBO.t) : list (string * Z) :=
  match obos with
  | [] => []
  | obo :: rest =>
      concat (map (fun t =>
        (enumName (Term.prefix t) (Term.name t), enumValue t index) ::
        (if String.eqb (OBO.prefix obo) "MS"
         then map (fun syn => (enumName (Term.prefix t) syn, enumValue t index))
                  (Term.exactSynonyms t)
         else [])) (OBO.terms obo))
      ++ enumEntriesFrom (S index) rest
  end.

Definition enumEntries (obos : list OBO.t) : list (string * Z) :=
  ("CVID_Unknown", CVID_Unknown) :: enumEntriesFrom 0 obos.

(* --------------------------------------------------------------------- *)
(* Version extraction from the OBO header (writeCpp)                     *)
(* --------------------------------------------------------------------- *)

(** \s and \S of boost::regex: isspace in the C locale. *)
Definition isspace (c : ascii) : bool :=
  let n := Ascii.nat_of_ascii c in (n =? 32)%nat || (Nat.leb 9 n && Nat.leb n 13).

Fixpoint all_nonspace (s : string) : bool :=
  match s with
  | EmptyString => true
  | String c rest => negb (isspace c) && all_nonspace rest
  end.

(** The part "version: (\S+)" matched at the start of [s], up to the end
    of the line (regex_match is a whole-line match). *)
Definition version_field (s : string) : option string :=
  if String.prefix "version: " s then
    let tok := str_drop 9 s in
    if negb (String.eqb tok "") && all_nonspace tok then Some tok else None
  else None.

(** Positions after the first character: [prev] is the character just
    before [s], matched by [^-]; the lazy .*? takes the leftmost one. *)
Fixpoint match_version_from (prev : ascii) (s : string) : option string :=
  match s with
  | EmptyString => None
  | String c rest =>
      match (if Ascii.eqb prev "-" then None else version_field s) with
      | Some tok => Some tok
      | None => match_version_from c rest
      end
  end.

(** regex_match(line, what, boost::regex(".*?[^-]version: (\\S+)")),
    returning what[1]. *)
Definition match_version (line : string) : option string :=
  match line with
  | EmptyString => None
  | String c rest => match_version_from c rest
  end.

Fixpoint skip_space (s : string) : string :=
  match s with
  | String c rest => if isspace c then skip_space rest else s
  | EmptyString => EmptyString
  end.

Fixpoint take_nonspace (s : string) : string :=
  match s with
  | String c rest => if isspace c then EmptyString else String c (take_nonspace rest)
  | EmptyString => EmptyString
  end.

(** regex_match(line, what, boost::regex("\\s*date: (\\S+).*")),
    returning what[1]: the leading blanks are skipped (d is not a blank),
    the greedy \S+ takes the longest run of non-blanks and .* the rest. *)
Definition match_date (line : string) : option string :=
  let s := skip_space line in
  if String.prefix "date: " s then
    let tok := take_nonspace (str_drop 6 s) in
    if String.eqb tok "" then None else Some tok
  else None.

(** The loop over obo->header in writeCpp. *)
Fixpoint version_loop (header : list string) (version : string) : string :=
  match header with
  | [] => version
  | line :: rest =>
      match match_version line with
      | Some v => v                                  (* version = what[1]; break; *)
      | None =>
          let version :=
            if String.eqb version "" then
              match match_date line with Some d => d | None => version end
            else version in
          version_loop rest version
      end
  end.

Definition extract_version (header : list string) : string :=
  let version := version_loop header "" in
  if String.eqb version "" then "unknown" else version.

(* --------------------------------------------------------------------- *)
(* The generated artifact                                                *)
(* --------------------------------------------------------------------- *)

(** The data cv.cpp is generated with: the four tables, the (prefix,
    version) pairs written into initialize(), and oboPrefixes_. *)
Record Artifact := mkArtifact {
  termInfosA : list TermInfo.t;
  relationsIsA : list (Z * Z);
  relationsPartOf : list (Z * Z);
  relationsExactSynonym : list (Z * string);
  cvVersions : list (string * string);
  oboPrefixes : list string
}.

(** writeCpp; None when a parent reference does not resolve. *)
Definition writeCpp (obos : list OBO.t) : option Artifact :=
  isA ← relationRowsFrom Term.parentsIsA 0 obos;
  partOf ← relationRowsFrom Term.parentsPartOf 0 obos;
  Some (mkArtifact (termInfos_ obos) isA partOf (relationsExactSynonym_ obos)
          (map (fun obo => (OBO.prefix obo, extract_version (OBO.header obo))) obos)
          (map OBO.prefix obos)).

(* --------------------------------------------------------------------- *)
(* The emitted runtime: state and accessors of cv.cpp                    *)
(* --------------------------------------------------------------------- *)

Module CVTermInfo.
(** struct CVTermInfo, with CVTermInfo() : cvid((CVID)-1) {} *)
Record t := mk {
  cvid : Z;
  id : string;
  name : string;
  def : string;
  parentsIsA : list Z;
  parentsPartOf : list Z;
  exactSynonyms : list string
}.
Definition default : t := mk (-1) "" "" "" [] [] [].
Definition push_isA (p : Z) (i : t) : t :=
  mk (cvid i) (id i) (name i) (def i) (parentsIsA i ++ [p]) (parentsPartOf i)
     (exactSynonyms i).
Definition push_partOf (p : Z) (i : t) : t :=
  mk (cvid i) (id i) (name i) (def i) (parentsIsA i) (parentsPartOf i ++ [p])
     (exactSynonyms i).
Definition push_synonym (s : string) (i : t) : t :=
  mk (cvid i) (id i) (name i) (def i) (parentsIsA i) (parentsPartOf i)
     (exactSynonyms i ++ [s]).
End CVTermInfo.

Module CV.
(** struct CV; a default-constructed CV has four empty strings. *)
Record t := mk { id : string; URI : string; fullName : string; version : string }.
Definition empty : t := mk "" "" "" "".
Definition set_id (s : string) (c : t) : t := mk s (URI c) (fullName c) (version c).
Definition set_URI (s : string) (c : t) : t := mk (id c) s (fullName c) (version c).
Definition set_fullName (s : string) (c : t) : t := mk (id c) (URI c) s (version c).
Definition set_version (s : string) (c : t) : t := mk (id c) (URI c) (fullName c) s.
End CV.

(** bool initialized_; map<CVID,CVTermInfo> infoMap_;
    map<string,CV> cvMap_; vector<CVID> cvids_; *)
Record State := mkState {
  initialized_ : bool;
  infoMap_ : gmap Z CVTermInfo.t;
  cvMap_ : gmap string CV.t;
  cvids_ : list Z
}.

(** The state at process start. *)
Definition initialState : State := mkState false ∅ ∅ [].

(** m[k] = f(m[k]): operator[] inserts a default value for a missing key. *)
Definition info_update (f : CVTermInfo.t -> CVTermInfo.t) (k : Z)
    (m : gmap Z CVTermInfo.t) : gmap Z CVTermInfo.t :=
  <[k := f (default CVTermInfo.default (m !! k))]> m.

Definition cv_update (f : CV.t -> CV.t) (k : string)
    (m : gmap string CV.t) : gmap string CV.t :=
  <[k := f (default CV.empty (m !! k))]> m.

(** First loop of initialize(): infoMap_[temp.cvid] = temp;
    cvids_.push_back(it->cvid); *)
Definition init_row (st : State) (row : TermInfo.t) : State :=
  mkState (initialized_ st)
    (<[TermInfo.cvid row := CVTermInfo.mk (TermInfo.cvid row) (TermInfo.id row)
                              (TermInfo.name row) (TermInfo.def row) [] [] []]>
       (infoMap_ st))
    (cvMap_ st) (cvids_ st ++ [TermInfo.cvid row]).

Definition map_info (f : gmap Z CVTermInfo.t -> gmap Z CVTermInfo.t) (st : State) : State :=
  mkState (initialized_ st) (f (infoMap_ st)) (cvMap_ st) (cvids_ st).

Definition map_cv (f : gmap string CV.t -> gmap string CV.t) (st : State) : State :=
  mkState (initialized_ st) (infoMap_ st) (f (cvMap_ st)) (cvids_ st).

Definition MS_fullName : string := "Proteomics Standards Initiative Mass Spectrometry Ontology".
Definition MS_URI : string :=
  "http://psidev.cvs.sourceforge.net/*checkout*/psidev/psi/psi-ms/mzML/controlledVocabulary/psi-ms.obo".
Definition UO_fullName : string := "Unit Ontology".
Definition UO_URI : string :=
  "http://obo.cvs.sourceforge.net/*checkout*/obo/obo/ontology/phenotype/unit.obo".

(** The loops of void initialize() as emitted by writeCpp, one by one. *)
Definition init_terms (A : Artifact) (st : State) : State :=
  foldl init_row st (termInfosA A).

Definition init_isA (A : Artifact) (st : State) : State :=
  foldl (fun st '(c, p) => map_info (info_update (CVTermInfo.push_isA p) c) st)
        st (relationsIsA A).

Definition init_partOf (A : Artifact) (st : State) : State :=
  foldl (fun st '(c, p) => map_info (info_update (CVTermInfo.push_partOf p) c) st)
        st (relationsPartOf A).

Definition init_synonyms (A : Artifact) (st : State) : State :=
  foldl (fun st '(c, s) => map_info (info_update (CVTermInfo.push_synonym s) c) st)
        st (relationsExactSynonym A).

Definition init_cvs (A : Artifact) (st : State) : State :=
  let st := map_cv (cv_update (CV.set_fullName MS_fullName) "MS") st in
  let st := map_cv (cv_update (CV.set_URI MS_URI) "MS") st in
  let st := map_cv (cv_update (CV.set_fullName UO_fullName) "UO") st in
  let st := map_cv (cv_update (CV.set_URI UO_URI) "UO") st in
  foldl (fun st '(prefix, version) =>
           map_cv (cv_update (CV.set_version version) prefix)
             (map_cv (cv_update (CV.set_id prefix) prefix) st))
        st (cvVersions A).

(** void initialize(), ending with initialized_ = true. *)
Definition initialize (A : Artifact) (st : State) : State :=
  let st := init_cvs A (init_synonyms A (init_partOf A (init_isA A (init_terms A st)))) in
  mkState true (infoMap_ st) (cvMap_ st) (cvids_ st).

(** if (!initialized_) initialize(); *)
Definition ensure_init (A : Artifact) (st : State) : State :=
  if initialized_ st then st else initialize A st.

(** const CV& cv(const string& prefix): return cvMap_[prefix]; *)
Definition cv (A : Artifact) (prefix : string) (st : State) : CV.t * State :=
  let st := ensure_init A st in
  match cvMap_ st !! prefix with
  | Some c => (c, st)
  | None => (CV.empty, map_cv (fun m => <[prefix := CV.empty]> m) st)
  end.

(** infoMap_[cvid] on an initialized state. *)
Definition info_index (cvid : Z) (st : State) : CVTermInfo.t * State :=
  match infoMap_ st !! cvid with
  | Some i => (i, st)
  | None => (CVTermInfo.default, map_info (fun m => <[cvid := CVTermInfo.default]> m) st)
  end.

(** const CVTermInfo& cvTermInfo(CVID cvid) *)
Definition cvTermInfo (A : Artifact) (cvid : Z) (st : State) : CVTermInfo.t * State :=
  info_index cvid (ensure_init A st).

(** unsigned long on the LP64 targets (64 bits) and unsigned int (32). *)
Definition ULONG_MAX : Z := 2 ^ 64 - 1.
Definition uint_modulus : Z := 2 ^ 32.

Fixpoint take_digits (s : string) : list Z :=
  match s with
  | String c rest =>
      let n := Z.of_nat (Ascii.nat_of_ascii c) in
      if (48 <=? n) && (n <=? 57) then (n - 48) :: take_digits rest else []
  | EmptyString => []
  end.

Definition digits_value (ds : list Z) : Z := fold_left (fun acc d => acc * 10 + d) ds 0.

(** The result of strtoul(nptr, &endptr, 10) in the C library: the value,
    whether endptr moved past nptr, and whether errno was set to ERANGE.
    Leading blanks and one sign are accepted; with no digit after them
    nothing is converted (0, endptr = nptr); a value above ULONG_MAX gives
    ULONG_MAX and ERANGE; a minus sign negates in unsigned arithmetic;
    the characters after the digits are left unread. *)
Record StrtoulResult := mkStrtoul { strtoul_value : Z; strtoul_converted : bool;
                                    strtoul_erange : bool }.

(** Blanks, an optional sign, then the decimal digits that strtoul reads. *)
Definition strtoul_scan (s : string) : bool * list Z :=
  let s1 := skip_space s in
  match s1 with
  | String c rest =>
      if Ascii.eqb c "+" then (false, take_digits rest)
      else if Ascii.eqb c "-" then (true, take_digits rest)
      else (false, take_digits s1)
  | EmptyString => (false, [])
  end.

Definition strtoul (s : string) : StrtoulResult :=
  let '(neg, ds) := strtoul_scan s in
  match ds with
  | [] => mkStrtoul 0 false false
  | _ =>
      let v := digits_value ds in
      if ULONG_MAX <? v then mkStrtoul ULONG_MAX true true
      else mkStrtoul (if neg then (- v) mod (ULONG_MAX + 1) else v) true false
  end.

(** inline unsigned int stringToCVID(const std::string& str);
    None is throw bad_lexical_cast(). *)
Definition stringToCVID (str : string) : option Z :=
  let r := strtoul str in
  let value := strtoul_value r mod uint_modulus in   (* (unsigned int) *)
  if ((value =? 0) && negb (strtoul_converted r)) || strtoul_erange r
  then None else Some value.

(** bal::split(tokens, id, bal::is_any_of(":")) with adjacent separators
    kept apart: one token more than there are colons. *)
Fixpoint split_colon (s : string) : list string :=
  match s with
  | EmptyString => [""]
  | String c rest =>
      let toks := split_colon rest in
      if Ascii.eqb c ":" then "" :: toks
      else match toks with
           | t :: ts => String c t :: ts
           | [] => [String c EmptyString]
           end
  end.

(** find_if(oboPrefixes_, ..., StringEquals(prefix)): index of the first match. *)
Fixpoint find_prefix (prefix : string) (l : list string) : option nat :=
  match l with
  | [] => None
  | p :: rest =>
      if String.eqb p prefix then Some O
      else match find_prefix prefix rest with Some i => Some (S i) | None => None end
  end.

(** The exceptions the string lookup throws. *)
Inductive Exn :=
| RuntimeError (what : string)
| BadLexicalCast.

Definition dquote : string := String (Ascii.ascii_of_nat 34) EmptyString.

Definition split_error (id : string) : string :=
  String.append "[cvinfo] Error splitting id "
    (String.append dquote (String.append id (String.append dquote
       " into prefix and numeric components"))).

(** The conversion (CVID)x of a size_t.  enum CVID has the enumerator
    CVID_Unknown = -1 and, with the few OBO files cvgen is run with, term
    codes below 2^31, so its underlying type is int; the conversion keeps
    the low 32 bits in two's complement. *)
Definition to_CVID (x : Z) : Z :=
  let m := x mod 2 ^ 32 in if m <? 2 ^ 31 then m else m - 2 ^ 32.

(** const CVTermInfo& cvTermInfo(const string& id); the left summand is a
    thrown exception.  The code is (it-oboPrefixes_)*enumBlockSize_ plus
    the unsigned int, in size_t arithmetic, converted to CVID. *)
Definition cvTermInfoStr (A : Artifact) (id : string) (st : State)
    : (Exn + CVTermInfo.t) * State :=
  let st := ensure_init A st in
  let cvid := CVID_Unknown in
  match split_colon id with
  | [prefix; cvidStr] =>
      match find_prefix prefix (oboPrefixes A) with
      | Some i =>
          match stringToCVID cvidStr with
          | None => (inl BadLexicalCast, st)
          | Some v =>
              let cvid := to_CVID (((Z.of_nat i * enumBlockSize_) mod size_t_modulus + v)
                                     mod size_t_modulus) in
              let '(r, st') := info_index cvid st in (inr r, st')
          end
      | None => let '(r, st') := info_index cvid st in (inr r, st')
      end
  | _ => (inl (RuntimeError (split_error id)), st)
  end.

(** The loop of cvIsA over info.parentsIsA:
      for (...) if (cvIsA( *it,parent)) return true;  return false; *)
Fixpoint isA_loop (rec : Z -> State -> option (bool * State)) (ps : list Z)
    (st : State) : option (bool * State) :=
  match ps with
  | [] => Some (false, st)
  | p :: ps' =>
      match rec p st with
      | None => None
      | Some (true, st') => Some (true, st')
      | Some (false, st') => isA_loop rec ps' st'
      end
  end.

(** bool cvIsA(CVID child, CVID parent).  The recursion has no cycle
    guard; [fuel] bounds the depth and None means it was exhausted, so a
    call that returns is one that returns for some fuel.  The loop reads
    info.parentsIsA, a reference into infoMap_ whose list no later
    insertion changes. *)
Fixpoint cvIsA (A : Artifact) (fuel : nat) (child parent : Z) (st : State)
    : option (bool * State) :=
  match fuel with
  | O => None
  | S f =>
      if Z.eqb child parent then Some (true, st) else
      let '(info, st) := cvTermInfo A child st in
      isA_loop (fun p st => cvIsA A f p parent st) (CVTermInfo.parentsIsA info) st
  end.

(** const vector<CVID>& cvids() *)
Definition cvids (A : Artifact) (st : State) : list Z * State :=
  let st := ensure_init A st in (cvids_ st, st).

(* --------------------------------------------------------------------- *)
(* Notions used to state the properties                                  *)
(* --------------------------------------------------------------------- *)

(** The value of the first element on which [f] succeeds. *)
Fixpoint first_match {X Y} (f : X -> option Y) (l : list X) : option Y :=
  match l with
  | [] => None
  | x :: rest => match f x with Some y => Some y | None => first_match f rest end
  end.

(** Every term's code, file by file and term by term. *)
Fixpoint allCodesFrom (index : nat) (obos : list OBO.t) : list Z :=
  match obos with
  | [] => []
  | obo :: rest => map (fun t => enumValue t index) (OBO.terms obo) ++ allCodesFrom (S index) rest
  end.

Definition allCodes (obos : list OBO.t) : list Z := allCodesFrom 0 obos.

(** The same OBO file with every synonym list emptied. *)
Definition without_synonyms (obo : OBO.t) : OBO.t :=
  OBO.mk (OBO.filename obo) (OBO.prefix obo) (OBO.header obo)
    (map (fun t => Term.mk (Term.prefix t) (Term.id t) (Term.name t) (Term.def t)
                     (Term.parentsIsA t) (Term.parentsPartOf t) []) (OBO.terms obo)).

(** [m'] keeps every entry of [m] and adds at most entries [d] under keys
    absent from [m]. *)
Definition default_grown {K} `{Countable K} {V} (d : V) (m m' : gmap K V) : Prop :=
  (forall k v, m !! k = Some v -> m' !! k = Some v) /\
  (forall k v, m' !! k = Some v -> m !! k = Some v \/ (m !! k = None /\ v = d)).

(** [st'] differs from [st] at most by default entries under keys that
    were absent, in infoMap_ and cvMap_; flag and cvids_ are unchanged. *)
Definition only_default_insertions (st st' : State) : Prop :=
  initialized_ st' = initialized_ st /\ cvids_ st' = cvids_ st /\
  default_grown CVTermInfo.default (infoMap_ st) (infoMap_ st') /\
  default_grown CV.empty (cvMap_ st) (cvMap_ st').

(** The is-a parents infoMap_ holds for a code (none when absent). *)
Definition parentsOf (st : State) (c : Z) : list Z :=
  match infoMap_ st !! c with Some i => CVTermInfo.parentsIsA i | None => [] end.

(** cvIsA(child, parent) returns [b] (for some recursion depth). *)
Definition isA_returns (A : Artifact) (st : State) (child parent : Z) (b : bool) : Prop :=
  exists fuel st', cvIsA A fuel child parent st = Some (b, st').

(** The loop of cvIsA without the state: the first parent for which [r]
    gives true, false when all give false, None when one diverges first. *)
Fixpoint first_true (r : Z -> option bool) (ps : list Z) : option bool :=
  match ps with
  | [] => Some false
  | q :: ps' =>
      match r q with
      | None => None
      | Some true => Some true
      | Some false => first_true r ps'
      end
  end.

(** cvIsA read through a fixed parent function, without the state. *)
Fixpoint isA_pure (par : Z -> list Z) (fuel : nat) (child parent : Z) : option bool :=
  match fuel with
  | O => None
  | S f =>
      if Z.eqb child parent then Some true
      else first_true (fun q => isA_pure par f q parent) (par child)
  end.

(** The record the sentinel row and the CVID_Unknown synonym row give. *)
Definition unknownInfo : CVTermInfo.t :=
  CVTermInfo.mk CVID_Unknown "??:0000000" "CVID_Unknown" "CVID_Unknown" [] [] ["Unknown"].

(* --------------------------------------------------------------------- *)
(* The other functions of cvgen and of the emitted cv.cpp                *)
(* --------------------------------------------------------------------- *)

(** toupper in the C locale. *)
Definition toupper (a : ascii) : ascii :=
  let n := Ascii.nat_of_ascii a in
  if Nat.leb 97 n && Nat.leb n 122 then Ascii.ascii_of_nat (n - 32) else a.

Definition islower (a : ascii) : bool :=
  let n := Ascii.nat_of_ascii a in Nat.leb 97 n && Nat.leb n 122.

(** string includeGuardString(const string& basename) *)
Definition includeGuardString (basename : string) : string :=
  let includeGuard := string_map toupper basename in
  String.append "_" (String.append includeGuard "_HPP_").

(** bool CV::operator==(const CV& that) const *)
Definition CV_equals (a b : CV.t) : bool :=
  String.eqb (CV.id a) (CV.id b) && String.eqb (CV.fullName a) (CV.fullName b) &&
  String.eqb (CV.URI a) (CV.URI b) && String.eqb (CV.version a) (CV.version b).

(** bool CV::empty() const *)
Definition CV_isEmpty (c : CV.t) : bool :=
  String.eqb (CV.id c) "" && String.eqb (CV.fullName c) "" &&
  String.eqb (CV.URI c) "" && String.eqb (CV.version c) "".

(** const string& CVTermInfo::shortName() const: the loop keeps the
    current result unless a synonym is strictly shorter. *)
Definition shortName (i : CVTermInfo.t) : string :=
  fold_left (fun result s =>
               if Nat.ltb (String.length s) (String.length result) then s else result)
            (CVTermInfo.exactSynonyms i) (CVTermInfo.name i).

(** id.substr(0, id.find_first_of(":")), npos taking the whole string. *)
Fixpoint take_until_colon (s : string) : string :=
  match s with
  | EmptyString => EmptyString
  | String c rest => if Ascii.eqb c ":" then EmptyString else String c (take_until_colon rest)
  end.

(** string CVTermInfo::prefix() const *)
Definition CVTermInfo_prefix (i : CVTermInfo.t) : string := take_until_colon (CVTermInfo.id i).

(** No character of the string is a colon. *)
Definition no_colon (s : string) : Prop := ~ In ":"%char (String.list_ascii_of_string s).

(** The last termInfos_ row with the given cvid. *)
Fixpoint last_row (c : Z) (rows : list TermInfo.t) : option TermInfo.t :=
  match rows with
  | [] => None
  | r :: rs =>
      match last_row c rs with
      | Some x => Some x
      | None => if Z.eqb (TermInfo.cvid r) c then Some r else None
      end
  end.

(** The second components of the rows whose first component is [c], in
    table order. *)
Definition rows_for {X} (c : Z) (rows : list (Z * X)) : list X :=
  map snd (List.filter (fun r => Z.eqb (fst r) c) rows).

(** The record infoMap_[c] holds after initialize(), read off the tables:
    the fields of the last termInfos_ row for [c] (those of a default
    CVTermInfo when there is none) and the relation rows for [c]. *)
Definition termInfo_record (A : Artifact) (c : Z) : CVTermInfo.t :=
  let isA := rows_for c (relationsIsA A) in
  let partOf := rows_for c (relationsPartOf A) in
  let syns := rows_for c (relationsExactSynonym A) in
  match last_row c (termInfosA A) with
  | Some r => CVTermInfo.mk (TermInfo.cvid r) (TermInfo.id r) (TermInfo.name r)
                (TermInfo.def r) isA partOf syns
  | None => CVTermInfo.mk (-1) "" "" "" isA partOf syns
  end.

(** The CV cvMap_[p] holds after initialize(), read off the tables: id
    and version from the cvVersions entries for [p] (the last one wins),
    fullName and URI for MS and UO. *)
Definition cv_record (A : Artifact) (p : string) : CV.t :=
  let sel := List.filter (fun pv => String.eqb (fst pv) p) (cvVersions A) in
  CV.mk (match sel with [] => "" | _ => p end)
        (if String.eqb p "MS" then MS_URI else if String.eqb p "UO" then UO_URI else "")
        (if String.eqb p "MS" then MS_fullName
         else if String.eqb p "UO" then UO_fullName else "")
        (List.last (map snd sel) "").

(** The last term of a file with the given id (the one termMaps keeps). *)
Fixpoint last_term_with_id (j : N) (ts : list Term.t) : option Term.t :=
  match ts with
  | [] => None
  | t :: rest =>
      match last_term_with_id j rest with
      | Some q => Some q
      | None => if N.eqb (Term.id t) j then Some t else None
      end
  end.

(** The states of a process that uses the generated cv.cpp: the initial
    one and every state a sequence of accessor calls leaves (a call of
    cvTermInfo(id) that throws leaves its state too; a call of cvIsA
    counts when it returns). *)
Inductive reachable (A : Artifact) : State -> Prop :=
| reach_initial : reachable A initialState
| reach_cv prefix st : reachable A st -> reachable A (snd (cv A prefix st))
| reach_cvTermInfo cvid st : reachable A st -> reachable A (snd (cvTermInfo A cvid st))
| reach_cvTermInfoStr id st : reachable A st -> reachable A (snd (cvTermInfoStr A id st))
| reach_cvIsA fuel child parent st b st' :
    reachable A st -> cvIsA A fuel child parent st = Some (b, st') -> reachable A st'
| reach_cvids st : reachable A st -> reachable A (snd (cvids A st)).

(* --------------------------------------------------------------------- *)
(* Example runs                                                          *)
(* --------------------------------------------------------------------- *)

Definition ex_ms_spectrum : Term.t :=
  Term.mk "MS" 1 "mass spectrum" "spectrum" [] [] ["MS1 spectrum"].
Definition ex_ms_child : Term.t := Term.mk "MS" 2 "child" "kind of spectrum" [1%N] [] [].
Definition ex_uo_second : Term.t := Term.mk "UO" 1 "second" "time unit" [] [] ["s"].

Definition ex_ms_obo : OBO.t :=
  OBO.mk "psi-ms.obo" "MS" ["format-version: 1.2"; "date: 01:01:2020 00:00"]
    [ex_ms_spectrum; ex_ms_child].
Definition ex_uo_obo : OBO.t :=
  OBO.mk "unit.obo" "UO" ["format-version: 1.2"] [ex_uo_second].

(** cvgen psi-ms.obo unit.obo *)
Definition ex_obos : list OBO.t := [ex_ms_obo; ex_uo_obo].

Definition no_artifact : Artifact := mkArtifact [] [] [] [] [] [].

Definition ex_artifact : Artifact := default no_artifact (writeCpp ex_obos).

(** An is-a cycle: term 1 is_a 2 and is_a 3, term 2 is_a 1. *)
Definition ex_cyclic_obos : list OBO.t :=
  [OBO.mk "cyclic.obo" "MS" []
     [Term.mk "MS" 1 "a" "" [2%N; 3%N] [] [];
      Term.mk "MS" 2 "b" "" [1%N] [] [];
      Term.mk "MS" 3 "c" "" [] [] []]].

Definition ex_cyclic_artifact : Artifact := default no_artifact (writeCpp ex_cyclic_obos).

(* ===================================================================== *)
(* Theorems                                                              *)
(* ===================================================================== *)

Lemma enumValue_id_no_wrap (v n : Z) :
  0 <= v < enumBlockSize_ -> 0 <= n < max_namespaces ->
  enumValue_id v n = v + enumBlockSize_ * n.
Proof.
  unfold enumValue_id, enumBlockSize_, max_namespaces, size_t_modulus.
  intros Hv Hn.
  rewrite (Z.mod_small (100000000 * n)) by lia.
  rewrite Z.mod_small by lia. reflexivity.
Qed.

(** C1: for namespace indices of one run and local ids below the block
    size, the allocated codes are injective and division/modulo by the
    block size recovers the (namespace index, local id) pair. *)
Theorem enumValue_injective_and_deallocate (n1 v1 n2 v2 : Z) :
  0 <= v1 < enumBlockSize_ -> 0 <= n1 < max_namespaces ->
  0 <= v2 < enumBlockSize_ -> 0 <= n2 < max_namespaces ->
  (enumValue_id v1 n1 = enumValue_id v2 n2 -> n1 = n2 /\ v1 = v2) /\
  deallocate (enumValue_id v1 n1) = (n1, v1).
Proof.
  intros Hv1 Hn1 Hv2 Hn2.
  rewrite !enumValue_id_no_wrap by assumption.
  unfold deallocate.
  assert (Hdiv : forall v n, 0 <= v < enumBlockSize_ ->
            (v + enumBlockSize_ * n) / enumBlockSize_ = n /\
            (v + enumBlockSize_ * n) mod enumBlockSize_ = v).
  { intros v n Hv. unfold enumBlockSize_ in *. split.
    - rewrite Z.mul_comm, Z.div_add by lia. rewrite Z.div_small by lia. lia.
    - rewrite Z.mul_comm, Z.mod_add by lia. apply Z.mod_small. lia. }
  destruct (Hdiv v1 n1 Hv1) as [Hq1 Hr1].
  destruct (Hdiv v2 n2 Hv2) as [Hq2 Hr2].
  split.
  - intros Heq. rewrite Heq in Hq1, Hr1. split; congruence.
  - rewrite Hq1, Hr1. reflexivity.
Qed.

Lemma enumValue_injective_and_deallocate_witness :
  (0 <= 1 < enumBlockSize_ /\ 0 <= 0 < max_namespaces /\
   0 <= 1 < enumBlockSize_ /\ 0 <= 1 < max_namespaces) /\
  ((enumValue_id 1 0 = enumValue_id 1 1 -> 0 = 1 /\ 1 = 1) /\
   deallocate (enumValue_id 1 0) = (0, 1)).
Proof.
  split.
  - unfold enumBlockSize_, max_namespaces. lia.
  - apply (enumValue_injective_and_deallocate 0 1 1 1);
      unfold enumBlockSize_, max_namespaces; lia.
Defined.

(* --------------------------------------------------------------------- *)
(* escape_copy                                                           *)
(* --------------------------------------------------------------------- *)

Lemma replace_all_fuel_empty f search fmt :
  replace_all_fuel f search fmt EmptyString = EmptyString.
Proof. destruct f; reflexivity. Qed.

(** One replace_all of a backslash escape is one doubling pass. *)
Lemma replace_all_fuel_bs (X : ascii) :
  X <> bs_char -> forall f s, (String.length s <= f)%nat ->
  replace_all_fuel f (bs1 X) (bs2 X) s = double_escapes (fun d => Ascii.eqb d X) s.
Proof.
  intros HX f. induction f as [|f IH]; intros s Hlen.
  - destruct s; [reflexivity | simpl in Hlen; lia].
  - destruct s as [|c rest]; [reflexivity|].
    simpl in Hlen.
    cbn [replace_all_fuel double_escapes].
    unfold bs1 at 1. cbn [String.prefix].
    destruct (ascii_dec bs_char c) as [<-|Hc].
    + rewrite Ascii.eqb_refl, andb_true_l.
      destruct rest as [|d rest'].
      * simpl. rewrite replace_all_fuel_empty. reflexivity.
      * cbn [String.prefix].
        destruct (ascii_dec X d) as [<-|Hd].
        -- rewrite Ascii.eqb_refl. simpl in Hlen.
           cbn [String.length bs1 str_drop String.append bs2 bs1].
           rewrite IH by lia.
           cbn [double_escapes].
           replace (Ascii.eqb X bs_char) with false
             by (symmetry; apply Ascii.eqb_neq; exact HX).
           destruct rest'; reflexivity.
        -- replace (Ascii.eqb d X) with false
             by (symmetry; apply Ascii.eqb_neq; congruence).
           rewrite IH by (simpl in *; lia). reflexivity.
    + replace (Ascii.eqb c bs_char) with false
        by (symmetry; apply Ascii.eqb_neq; congruence).
      rewrite IH by lia. reflexivity.
Qed.

Lemma replace_all_bs (X : ascii) s :
  X <> bs_char ->
  replace_all s (bs1 X) (bs2 X) = double_escapes (fun d => Ascii.eqb d X) s.
Proof.
  intros HX. unfold replace_all. simpl String.eqb.
  apply replace_all_fuel_bs; [exact HX | lia].
Qed.

Lemma hd_sat_double_escapes P Q s : hd_sat Q (double_escapes P s) = hd_sat Q s.
Proof.
  destruct s as [|c rest]; [reflexivity|]. simpl.
  destruct (Ascii.eqb c bs_char && _) eqn:E; [|reflexivity].
  apply andb_prop in E as [E _]. apply Ascii.eqb_eq in E. subst. reflexivity.
Qed.

Lemma double_escapes_ext P Q s :
  (forall c, P c = Q c) -> double_escapes P s = double_escapes Q s.
Proof.
  intros H. induction s as [|c rest IH]; [reflexivity|].
  simpl. rewrite IH.
  replace (match rest with String d _ => P d | EmptyString => false end)
    with (match rest with String d _ => Q d | EmptyString => false end)
    by (destruct rest; auto).
  reflexivity.
Qed.

Lemma double_escapes_none s : double_escapes (fun _ => false) s = s.
Proof.
  induction s as [|c rest IH]; [reflexivity|]. simpl.
  replace (match rest with String _ _ => false | EmptyString => false end) with false
    by (destruct rest; reflexivity).
  rewrite andb_false_r, IH. reflexivity.
Qed.

Lemma double_escapes_cons P c rest :
  double_escapes P (String c rest) =
  if Ascii.eqb c bs_char && hd_sat P rest
  then String bs_char (String bs_char (double_escapes P rest))
  else String c (double_escapes P rest).
Proof. reflexivity. Qed.

(** Two passes for disjoint characters make one pass for both. *)
Lemma double_escapes_compose P Q s :
  P bs_char = false -> Q bs_char = false ->
  (forall c, P c = true -> Q c = false) ->
  double_escapes Q (double_escapes P s) = double_escapes (fun c => P c || Q c) s.
Proof.
  intros HP HQ Hdis. induction s as [|c rest IH]; [reflexivity|].
  rewrite !double_escapes_cons.
  destruct (Ascii.eqb c bs_char) eqn:Ec; simpl andb.
  - apply Ascii.eqb_eq in Ec. subst c.
    destruct (hd_sat P rest) eqn:Hp; cbv beta iota.
    + assert (HQr : hd_sat Q rest = false)
        by (destruct rest; simpl in *; [discriminate | apply Hdis; exact Hp]).
      assert (HPQ : hd_sat (fun c => P c || Q c) rest = true)
        by (destruct rest; simpl in *; [discriminate | rewrite Hp; reflexivity]).
      rewrite !double_escapes_cons, HPQ.
      cbn [hd_sat]. rewrite HQ, hd_sat_double_escapes, HQr, Ascii.eqb_refl.
      simpl andb. rewrite IH. reflexivity.
    + rewrite double_escapes_cons, hd_sat_double_escapes, Ascii.eqb_refl, IH.
      simpl andb.
      replace (hd_sat (fun c => P c || Q c) rest) with (hd_sat Q rest)
        by (destruct rest; simpl in *; [reflexivity | rewrite Hp; reflexivity]).
      reflexivity.
  - cbv beta iota. rewrite double_escapes_cons, Ec, IH. reflexivity.
Qed.

Lemma escape_passes (xs : list ascii) (P : ascii -> bool) (s : string) :
  NoDup xs -> ~ In bs_char xs -> (forall x, In x xs -> P x = false) -> P bs_char = false ->
  fold_left (fun s X => replace_all s (bs1 X) (bs2 X)) xs (double_escapes P s) =
  double_escapes (fun c => P c || existsb (Ascii.eqb c) xs) s.
Proof.
  revert P. induction xs as [|x xs IH]; intros P Hnd Hbs HPx HPbs.
  - simpl. apply double_escapes_ext. intros c. rewrite orb_false_r. reflexivity.
  - simpl fold_left.
    assert (Hx : x <> bs_char) by (intros ->; apply Hbs; left; reflexivity).
    rewrite replace_all_bs by exact Hx.
    rewrite double_escapes_compose.
    + inversion Hnd as [|? ? Hnotin Hnd']. subst.
      rewrite IH.
      * apply double_escapes_ext. intros c. simpl. rewrite orb_assoc. reflexivity.
      * exact Hnd'.
      * intros Hin. apply Hbs. right. exact Hin.
      * intros y Hy. rewrite (HPx y (or_intror Hy)). simpl.
        apply Ascii.eqb_neq. intros ->. apply Hnotin, list_elem_of_In. exact Hy.
      * rewrite HPbs, orb_false_l. apply Ascii.eqb_neq. congruence.
    + exact HPbs.
    + apply Ascii.eqb_neq. congruence.
    + intros c Hc. apply Ascii.eqb_neq. intros ->.
      rewrite (HPx x (or_introl eq_refl)) in Hc. discriminate.
Qed.

(** C10 (amended): escape_copy puts a second backslash in front of every
    backslash that is immediately followed by one of ! : , ( ) [ ] { }
    and copies everything else unchanged; the name and definition columns
    of termInfos_ are emitted through it, so a definition containing
    backslash-colon is emitted with backslash-backslash-colon. *)
Theorem escape_copy_doubles_obo_escapes :
  (forall s, escape_copy s = double_escapes obo_escaped s) /\
  (forall index t,
     TermInfo.name (termInfoRow index t) = escape_copy (Term.name t) /\
     TermInfo.def (termInfoRow index t) = escape_copy (Term.def t)) /\
  escape_copy (bs1 ":") = bs2 ":".
Proof.
  split; [|split].
  - intros s.
    change (escape_copy s) with
      (fold_left (fun s X => replace_all s (bs1 X) (bs2 X)) obo_escape_chars s).
    rewrite <- (double_escapes_none s) at 1.
    rewrite escape_passes.
    + apply double_escapes_ext. intros c. reflexivity.
    + apply (bool_decide_unpack _). vm_compute. reflexivity.
    + unfold obo_escape_chars. simpl. intuition discriminate.
    + reflexivity.
    + reflexivity.
  - intros index t. split; reflexivity.
  - vm_compute. reflexivity.
Qed.

(** C10: a backslash-quote in a definition, a backslash escape of a
    punctuation character of the OBO format, is emitted as it is: its
    backslash is not doubled. *)
Lemma escape_copy_keeps_backslash_quote :
  let t := Term.mk "MS" 1 "n" (String bs_char dquote) [] [] [] in
  TermInfo.def (termInfoRow 0 t) = String bs_char dquote /\
  TermInfo.def (termInfoRow 0 t) <> String bs_char (String bs_char dquote).
Proof. vm_compute. split; [reflexivity | discriminate]. Qed.

(* --------------------------------------------------------------------- *)
(* The artifact                                                          *)
(* --------------------------------------------------------------------- *)

Lemma writeCpp_Some obos A :
  writeCpp obos = Some A ->
  termInfosA A = termInfos_ obos /\
  relationRowsFrom Term.parentsIsA 0 obos = Some (relationsIsA A) /\
  relationRowsFrom Term.parentsPartOf 0 obos = Some (relationsPartOf A) /\
  relationsExactSynonym A = relationsExactSynonym_ obos /\
  cvVersions A = map (fun obo => (OBO.prefix obo, extract_version (OBO.header obo))) obos /\
  oboPrefixes A = map OBO.prefix obos.
Proof.
  unfold writeCpp. intros H.
  destruct (relationRowsFrom Term.parentsIsA 0 obos) eqn:E1; simpl in H; [|discriminate].
  destruct (relationRowsFrom Term.parentsPartOf 0 obos) eqn:E2; simpl in H; [|discriminate].
  injection H as <-. simpl. tauto.
Qed.

(* --------------------------------------------------------------------- *)
(* Version extraction                                                    *)
(* --------------------------------------------------------------------- *)

Lemma match_date_nonempty line d : match_date line = Some d -> d <> "".
Proof.
  unfold match_date. intros H.
  destruct (String.prefix _ _); [|discriminate].
  destruct (String.eqb _ "") eqn:E; [discriminate|].
  injection H as <-. apply String.eqb_neq. exact E.
Qed.

Lemma match_version_from_nonempty prev s v : match_version_from prev s = Some v -> v <> "".
Proof.
  revert prev. induction s as [|c rest IH]; intros prev H; [discriminate|].
  simpl in H.
  destruct (if Ascii.eqb prev "-" then None else version_field (String c rest)) eqn:E.
  - injection H as <-.
    destruct (Ascii.eqb prev "-"); [discriminate|].
    unfold version_field in E.
    destruct (String.prefix _ _); [|discriminate].
    destruct (negb (String.eqb _ "") && _) eqn:E2; [|discriminate].
    injection E as <-. apply andb_prop in E2 as [E2 _].
    apply negb_true_iff, String.eqb_neq in E2. exact E2.
  - exact (IH c H).
Qed.

Lemma match_version_nonempty line v : match_version line = Some v -> v <> "".
Proof. destruct line; [discriminate|]. apply match_version_from_nonempty. Qed.

Lemma version_loop_spec (header : list string) (version : string) :
  version_loop header version =
  match first_match match_version header with
  | Some v => v
  | None =>
      if String.eqb version "" then default "" (first_match match_date header) else version
  end.
Proof.
  revert version. induction header as [|line rest IH]; intros version.
  - simpl. destruct (String.eqb version "") eqn:E; [|reflexivity].
    apply String.eqb_eq in E. exact E.
  - simpl. destruct (match_version line) as [v|] eqn:Hv; [reflexivity|].
    rewrite IH.
    destruct (first_match match_version rest) as [v|]; [reflexivity|].
    destruct (String.eqb version "") eqn:E.
    + destruct (match_date line) as [d|] eqn:Hd.
      * pose proof (match_date_nonempty _ _ Hd) as Hne.
        destruct (String.eqb d "") eqn:Ed; [apply String.eqb_eq in Ed; contradiction|].
        reflexivity.
      * rewrite E. reflexivity.
    + rewrite E. reflexivity.
Qed.

(** C9: the version written for a namespace is the capture of the first
    header line matching the version regex; failing that, the first
    whitespace-free token after "date: " of the first line matching the
    date regex; failing both, "unknown".  The header of the spec scenario
    gives "01:01:2020". *)
Theorem extract_version_first_match :
  (forall header : list string,
     extract_version header =
     match first_match match_version header with
     | Some v => v
     | None => match first_match match_date header with
               | Some d => d
               | None => "unknown"
               end
     end) /\
  (forall obos A, writeCpp obos = Some A ->
     cvVersions A = map (fun obo => (OBO.prefix obo, extract_version (OBO.header obo))) obos) /\
  extract_version ["format-version: 1.2"; "date: 01:01:2020 00:00"] = "01:01:2020".
Proof.
  split; [|split].
  - intros header. unfold extract_version. rewrite version_loop_spec.
    destruct (first_match match_version header) as [v|] eqn:Hv.
    + assert (Hne : v <> "").
      { clear -Hv. induction header as [|l r IH]; [discriminate|].
        simpl in Hv. destruct (match_version l) eqn:E.
        - injection Hv as <-. exact (match_version_nonempty _ _ E).
        - exact (IH Hv). }
      destruct (String.eqb v "") eqn:E; [apply String.eqb_eq in E; contradiction|].
      reflexivity.
    + simpl. destruct (first_match match_date header) as [d|] eqn:Hd; simpl.
      * assert (Hne : d <> "").
        { clear -Hd. induction header as [|l r IH]; [discriminate|].
          simpl in Hd. destruct (match_date l) eqn:E.
          - injection Hd as <-. exact (match_date_nonempty _ _ E).
          - exact (IH Hd). }
        destruct (String.eqb d "") eqn:E; [apply String.eqb_eq in E; contradiction|].
        reflexivity.
      * reflexivity.
  - intros obos A H. apply writeCpp_Some in H. tauto.
  - vm_compute. reflexivity.
Qed.

(* --------------------------------------------------------------------- *)
(* initialize() and cvids()                                              *)
(* --------------------------------------------------------------------- *)

Lemma foldl_invariant {X S : Type} (F : S -> X -> S) (P : S -> Prop) (l : list X) (s : S) :
  P s -> (forall s x, In x l -> P s -> P (F s x)) -> P (foldl F s l).
Proof.
  revert s. induction l as [|x l IH]; intros s Hs HF; simpl; [exact Hs|].
  apply IH.
  - apply HF; [left; reflexivity | exact Hs].
  - intros s' y Hy. apply HF. right. exact Hy.
Qed.

Lemma foldl_init_row_cvids rows st :
  cvids_ (foldl init_row st rows) = cvids_ st ++ map TermInfo.cvid rows.
Proof.
  revert st. induction rows as [|r rows IH]; intros st; simpl.
  - rewrite app_nil_r. reflexivity.
  - rewrite IH. simpl. rewrite <- app_assoc. reflexivity.
Qed.

Lemma init_terms_cvids A st :
  cvids_ (init_terms A st) = cvids_ st ++ map TermInfo.cvid (termInfosA A).
Proof. apply foldl_init_row_cvids. Qed.

Lemma init_relations_cvids A st :
  cvids_ (init_cvs A (init_synonyms A (init_partOf A (init_isA A st)))) = cvids_ st.
Proof.
  unfold init_cvs, init_synonyms, init_partOf, init_isA.
  apply (foldl_invariant _ (fun s => cvids_ s = cvids_ st)).
  2: { intros s [p v] _ Hs. exact Hs. }
  cbn [map_cv cvids_].
  apply (foldl_invariant _ (fun s => cvids_ s = cvids_ st)).
  2: { intros s [c s'] _ Hs. exact Hs. }
  apply (foldl_invariant _ (fun s => cvids_ s = cvids_ st)).
  2: { intros s [c p] _ Hs. exact Hs. }
  apply (foldl_invariant _ (fun s => cvids_ s = cvids_ st)).
  2: { intros s [c p] _ Hs. exact Hs. }
  reflexivity.
Qed.

Lemma initialize_cvids A st :
  cvids_ (initialize A st) = cvids_ st ++ map TermInfo.cvid (termInfosA A).
Proof.
  unfold initialize. cbn [cvids_]. rewrite init_relations_cvids. apply init_terms_cvids.
Qed.

Lemma termInfoRowsFrom_cvids index obos :
  map TermInfo.cvid (termInfoRowsFrom index obos) = allCodesFrom index obos.
Proof.
  revert index. induction obos as [|obo rest IH]; intros index; [reflexivity|].
  simpl. rewrite map_app, IH, map_map. reflexivity.
Qed.

(** The first cvids() call of a process. *)
Lemma cvids_first_call (obos : list OBO.t) (A : Artifact) :
  writeCpp obos = Some A ->
  fst (cvids A initialState) = CVID_Unknown :: allCodes obos.
Proof.
  intros H. apply writeCpp_Some in H as [HT _].
  change (fst (cvids A initialState)) with (cvids_ (initialize A initialState)).
  rewrite initialize_cvids, HT. simpl.
  unfold termInfos_. simpl. rewrite termInfoRowsFrom_cvids. reflexivity.
Qed.

(** C6: for cvgen psi-ms.obo unit.obo, cvids() is not the list of the
    three term codes: it starts with CVID_Unknown. *)
Lemma cvids_has_unknown_entry :
  writeCpp ex_obos = Some ex_artifact /\
  allCodes ex_obos = [1; 2; 100000001] /\
  fst (cvids ex_artifact initialState) = [CVID_Unknown; 1; 2; 100000001] /\
  fst (cvids ex_artifact initialState) <> allCodes ex_obos.
Proof.
  split; [vm_compute; reflexivity|].
  split; [vm_compute; reflexivity|].
  split; [vm_compute; reflexivity|].
  vm_compute. discriminate.
Qed.

(* --------------------------------------------------------------------- *)
(* Synonyms in the enumeration and in relationsExactSynonym_             *)
(* --------------------------------------------------------------------- *)

Lemma enumEntriesFrom_without_synonyms (obos : list OBO.t) (i index : nat) (obo : OBO.t) :
  obos !! i = Some obo -> OBO.prefix obo <> "MS" ->
  enumEntriesFrom index (<[i := without_synonyms obo]> obos) = enumEntriesFrom index obos.
Proof.
  revert i index. induction obos as [|o rest IH]; intros i index Hi Hne; [discriminate|].
  destruct i as [|i].
  - simpl in Hi. injection Hi as ->. simpl.
    f_equal. f_equal.
    rewrite map_map. apply map_ext. intros t. simpl.
    destruct (String.eqb (OBO.prefix obo) "MS") eqn:E.
    + apply String.eqb_eq in E. contradiction.
    + reflexivity.
  - simpl in Hi. simpl. rewrite IH by assumption. reflexivity.
Qed.

Lemma enumEntriesFrom_MS_synonym (obos : list OBO.t) (i index : nat) obo t syn :
  obos !! i = Some obo -> OBO.prefix obo = "MS" ->
  In t (OBO.terms obo) -> In syn (Term.exactSynonyms t) ->
  In (enumName (Term.prefix t) syn, enumValue t (index + i)) (enumEntriesFrom index obos).
Proof.
  revert i index. induction obos as [|o rest IH]; intros i index Hi HMS Ht Hs; [discriminate|].
  destruct i as [|i].
  - simpl in Hi. injection Hi as ->. simpl. apply in_or_app. left.
    apply in_concat. eexists. split.
    + apply in_map_iff. exists t. split; [reflexivity | exact Ht].
    + right. rewrite HMS. simpl. rewrite Nat.add_0_r.
      apply in_map_iff. exists syn. split; [reflexivity | exact Hs].
  - simpl in Hi. simpl. apply in_or_app. right.
    replace (index + S i)%nat with (S index + i)%nat by lia.
    apply IH; assumption.
Qed.

Lemma synonymRowsFrom_spec (obos : list OBO.t) (index : nat) (c : Z) (syn : string) :
  In (c, syn) (synonymRowsFrom index obos) <->
  exists i obo t, obos !! i = Some obo /\ In t (OBO.terms obo) /\
                  In syn (Term.exactSynonyms t) /\ c = enumValue t (index + i).
Proof.
  revert index. induction obos as [|o rest IH]; intros index.
  - simpl. split; [intros [] | intros (i & obo & t & H & _); discriminate].
  - simpl. rewrite in_app_iff, IH, in_concat. split.
    + intros [(l & Hl & Hin) | (i & obo & t & Hi & Ht & Hs & ->)].
      * apply in_map_iff in Hl as (t & <- & Ht).
        apply in_map_iff in Hin as (s & Heq & Hs). injection Heq as Hc Hs'. subst.
        exists 0%nat, o, t. rewrite Nat.add_0_r. auto.
      * exists (S i), obo, t. replace (index + S i)%nat with (S index + i)%nat by lia.
        auto.
    + intros (i & obo & t & Hi & Ht & Hs & ->). destruct i as [|i].
      * left. simpl in Hi. injection Hi as ->.
        exists (map (fun syn => (enumValue t index, syn)) (Term.exactSynonyms t)).
        split; [apply in_map_iff; exists t; auto|].
        rewrite Nat.add_0_r. apply in_map_iff. exists syn. auto.
      * right. exists i, obo, t. simpl in Hi.
        replace (index + S i)%nat with (S index + i)%nat by lia. auto.
Qed.

(** C7 (amended): the enumeration gets synonym entries only from files
    whose prefix is MS (emptying the synonyms of any other file leaves it
    unchanged, and every MS synonym has an entry with its term's code);
    relationsExactSynonym_ however holds the CVID_Unknown / Unknown row
    and one row per exact synonym of every term of every file. *)
Theorem synonyms_enum_MS_only_table_all (obos : list OBO.t) :
  (forall i obo, obos !! i = Some obo -> OBO.prefix obo <> "MS" ->
     enumEntries (<[i := without_synonyms obo]> obos) = enumEntries obos) /\
  (forall i obo t syn, obos !! i = Some obo -> OBO.prefix obo = "MS" ->
     In t (OBO.terms obo) -> In syn (Term.exactSynonyms t) ->
     In (enumName (Term.prefix t) syn, enumValue t i) (enumEntries obos)) /\
  (forall c syn, In (c, syn) (relationsExactSynonym_ obos) <->
     (c, syn) = (CVID_Unknown, "Unknown") \/
     exists i obo t, obos !! i = Some obo /\ In t (OBO.terms obo) /\
                     In syn (Term.exactSynonyms t) /\ c = enumValue t i).
Proof.
  split; [|split].
  - intros i obo Hi Hne. unfold enumEntries.
    rewrite enumEntriesFrom_without_synonyms by assumption. reflexivity.
  - intros i obo t syn Hi HMS Ht Hs. unfold enumEntries. right.
    exact (enumEntriesFrom_MS_synonym obos i 0 obo t syn Hi HMS Ht Hs).
  - intros c syn. unfold relationsExactSynonym_. simpl.
    rewrite synonymRowsFrom_spec. split.
    + intros [H | H]; [left; symmetry; exact H | right; exact H].
    + intros [H | H]; [left; symmetry; exact H | right; exact H].
Qed.

(** C7: for cvgen psi-ms.obo unit.obo the synonym table has a row for the
    synonym s of the UO term second. *)
Lemma synonym_table_has_UO_row :
  OBO.prefix ex_uo_obo <> "MS" /\ In ex_uo_second (OBO.terms ex_uo_obo) /\
  In (enumValue ex_uo_second 1, "s") (relationsExactSynonym_ ex_obos).
Proof.
  split; [discriminate|]. split; [left; reflexivity|].
  vm_compute. right. right. left. reflexivity.
Qed.

(* --------------------------------------------------------------------- *)
(* The keys of infoMap_ after initialize()                               *)
(* --------------------------------------------------------------------- *)

Lemma enumValue_nonneg t index : 0 <= enumValue t index.
Proof.
  unfold enumValue, enumValue_id, size_t_modulus.
  apply Z.mod_pos_bound. lia.
Qed.

Lemma allCodesFrom_nonneg index obos c : In c (allCodesFrom index obos) -> 0 <= c.
Proof.
  revert index. induction obos as [|o rest IH]; intros index H; [destruct H|].
  simpl in H. apply in_app_iff in H as [H | H].
  - apply in_map_iff in H as (t & <- & _). apply enumValue_nonneg.
  - exact (IH _ H).
Qed.

Lemma allCodesFrom_In index (obos : list OBO.t) i obo t :
  obos !! i = Some obo -> In t (OBO.terms obo) ->
  In (enumValue t (index + i)) (allCodesFrom index obos).
Proof.
  revert i index. induction obos as [|o rest IH]; intros i index Hi Ht; [discriminate|].
  simpl. apply in_app_iff. destruct i as [|i].
  - simpl in Hi. injection Hi as ->. left. rewrite Nat.add_0_r.
    apply in_map_iff. exists t. auto.
  - right. replace (index + S i)%nat with (S index + i)%nat by lia.
    apply IH; assumption.
Qed.

Lemma Forall2_In_r {X Y} (R : X -> Y -> Prop) l k y :
  Forall2 R l k -> In y k -> exists x, In x l /\ R x y.
Proof.
  induction 1 as [|x y' l k Hxy _ IH]; intros Hy; [destruct Hy|].
  destruct Hy as [<- | Hy].
  - exists x. split; [left; reflexivity | exact Hxy].
  - destruct (IH Hy) as (x' & Hx' & HR). exists x'. split; [right; exact Hx' | exact HR].
Qed.

Lemma relationRowsFrom_fst sel index obos rows c p :
  relationRowsFrom sel index obos = Some rows -> In (c, p) rows ->
  In c (allCodesFrom index obos).
Proof.
  revert index rows. induction obos as [|o rest IH]; intros index rows H Hin.
  - simpl in H. injection H as <-. destruct Hin.
  - simpl in H.
    destruct (mapM _ (OBO.terms o)) as [rows_o|] eqn:E1; simpl in H; [|discriminate].
    destruct (relationRowsFrom sel (S index) rest) as [rows_rest|] eqn:E2;
      simpl in H; [|discriminate].
    injection H as <-. simpl. apply in_app_iff.
    apply in_app_iff in Hin as [Hin | Hin].
    + left. apply in_concat in Hin as (r & Hr & Hcp).
      apply mapM_Some_1 in E1.
      destruct (Forall2_In_r _ _ _ _ E1 Hr) as (t & Ht & Et).
      apply mapM_Some_1 in Et.
      destruct (Forall2_In_r _ _ _ _ Et Hcp) as (j & _ & Ej).
      destruct (termMap o !! j) as [q|]; simpl in Ej; [|discriminate].
      injection Ej as Ec _. subst c.
      apply in_map_iff. exists t. auto.
    + right. exact (IH _ _ E2 Hin).
Qed.

Lemma info_update_lookup_ne f c k m :
  c <> k -> info_update f c m !! k = m !! k.
Proof. intros H. unfold info_update. apply lookup_insert_ne. exact H. Qed.

(** The infoMap_ entry under a key no loop of initialize() writes. *)
Lemma initialize_lookup_other A st k :
  (forall r, In r (termInfosA A) -> TermInfo.cvid r <> k) ->
  (forall c p, In (c, p) (relationsIsA A) -> c <> k) ->
  (forall c p, In (c, p) (relationsPartOf A) -> c <> k) ->
  (forall c s, In (c, s) (relationsExactSynonym A) -> c <> k) ->
  infoMap_ (initialize A st) !! k = infoMap_ st !! k.
Proof.
  intros H1 H2 H3 H4. unfold initialize. cbn [infoMap_].
  assert (Hcvs : forall s, infoMap_ (init_cvs A s) = infoMap_ s).
  { intros s. unfold init_cvs.
    apply (foldl_invariant _ (fun s' => infoMap_ s' = infoMap_ s)).
    - reflexivity.
    - intros s' [p v] _ Hs. exact Hs. }
  rewrite Hcvs.
  set (v := infoMap_ st !! k).
  unfold init_synonyms.
  apply (foldl_invariant _ (fun s => infoMap_ s !! k = v)).
  2: { intros s [c s'] Hin Hs. simpl. rewrite info_update_lookup_ne; [exact Hs|].
       exact (H4 _ _ Hin). }
  unfold init_partOf.
  apply (foldl_invariant _ (fun s => infoMap_ s !! k = v)).
  2: { intros s [c p] Hin Hs. simpl. rewrite info_update_lookup_ne; [exact Hs|].
       exact (H3 _ _ Hin). }
  unfold init_isA.
  apply (foldl_invariant _ (fun s => infoMap_ s !! k = v)).
  2: { intros s [c p] Hin Hs. simpl. rewrite info_update_lookup_ne; [exact Hs|].
       exact (H2 _ _ Hin). }
  unfold init_terms.
  apply (foldl_invariant _ (fun s => infoMap_ s !! k = v)).
  2: { intros s r Hin Hs. simpl. rewrite lookup_insert_ne; [exact Hs|].
       exact (H1 _ Hin). }
  reflexivity.
Qed.

Lemma init_cvs_infoMap A st : infoMap_ (init_cvs A st) = infoMap_ st.
Proof.
  unfold init_cvs.
  apply (foldl_invariant _ (fun s' => infoMap_ s' = infoMap_ st)).
  - reflexivity.
  - intros s' [p v] _ Hs. exact Hs.
Qed.

Lemma enumValue_not_unknown t index : enumValue t index <> CVID_Unknown.
Proof. pose proof (enumValue_nonneg t index). unfold CVID_Unknown. lia. Qed.

Lemma writeCpp_codes obos A :
  writeCpp obos = Some A ->
  map TermInfo.cvid (termInfosA A) = CVID_Unknown :: allCodes obos /\
  (forall c p, In (c, p) (relationsIsA A) -> In c (allCodes obos)) /\
  (forall c p, In (c, p) (relationsPartOf A) -> In c (allCodes obos)) /\
  (forall c s, In (c, s) (relationsExactSynonym A) <->
     (c, s) = (CVID_Unknown, "Unknown") \/ In (c, s) (synonymRowsFrom 0 obos)).
Proof.
  intros H. apply writeCpp_Some in H as (HT & HI & HP & HS & _).
  split; [|split; [|split]].
  - rewrite HT. simpl. rewrite termInfoRowsFrom_cvids. reflexivity.
  - intros c p Hin. exact (relationRowsFrom_fst _ _ _ _ _ _ HI Hin).
  - intros c p Hin. exact (relationRowsFrom_fst _ _ _ _ _ _ HP Hin).
  - intros c s. rewrite HS. unfold relationsExactSynonym_. simpl.
    split; intros [Hx | Hx]; auto.
Qed.

(** After initialize(), infoMap_[CVID_Unknown] is the sentinel row with its
    one synonym Unknown. *)
Lemma initialize_lookup_unknown obos A st :
  writeCpp obos = Some A -> infoMap_ (initialize A st) !! CVID_Unknown = Some unknownInfo.
Proof.
  intros H. pose proof (writeCpp_codes _ _ H) as (HT & HI & HP & _).
  apply writeCpp_Some in H as (HT' & _ & _ & HS & _).
  unfold initialize. cbn [infoMap_]. rewrite init_cvs_infoMap.
  unfold init_synonyms. rewrite HS. unfold relationsExactSynonym_. cbn [foldl].
  apply (foldl_invariant _ (fun s => infoMap_ s !! CVID_Unknown = Some unknownInfo)).
  2: { intros s [c syn] Hin Hs. simpl. rewrite info_update_lookup_ne; [exact Hs|].
       apply synonymRowsFrom_spec in Hin as (i & obo & t & _ & _ & _ & ->).
       apply enumValue_not_unknown. }
  cbn [map_info infoMap_]. unfold info_update. rewrite lookup_insert_eq.
  assert (Hpre : infoMap_ (init_partOf A (init_isA A (init_terms A st))) !! CVID_Unknown
                 = Some (CVTermInfo.mk CVID_Unknown "??:0000000" "CVID_Unknown"
                           "CVID_Unknown" [] [] [])).
  { unfold init_partOf.
    apply (foldl_invariant _ (fun s => infoMap_ s !! CVID_Unknown = _)).
    2: { intros s [c p] Hin Hs. simpl. rewrite info_update_lookup_ne; [exact Hs|].
         apply HP in Hin. unfold allCodes in Hin. apply allCodesFrom_nonneg in Hin.
         unfold CVID_Unknown. lia. }
    unfold init_isA.
    apply (foldl_invariant _ (fun s => infoMap_ s !! CVID_Unknown = _)).
    2: { intros s [c p] Hin Hs. simpl. rewrite info_update_lookup_ne; [exact Hs|].
         apply HI in Hin. unfold allCodes in Hin. apply allCodesFrom_nonneg in Hin.
         unfold CVID_Unknown. lia. }
    unfold init_terms. rewrite HT'. unfold termInfos_. cbn [foldl].
    apply (foldl_invariant _ (fun s => infoMap_ s !! CVID_Unknown = _)).
    2: { intros s r Hin Hs. simpl. rewrite lookup_insert_ne; [exact Hs|].
         apply (in_map TermInfo.cvid) in Hin. rewrite termInfoRowsFrom_cvids in Hin.
         apply allCodesFrom_nonneg in Hin. unfold CVID_Unknown. lia. }
    simpl. apply lookup_insert_eq. }
  rewrite Hpre. reflexivity.
Qed.

(** After initialize(), a code outside the tables has no infoMap_ entry. *)
Lemma initialize_lookup_absent obos A c :
  writeCpp obos = Some A -> ~ In c (CVID_Unknown :: allCodes obos) ->
  infoMap_ (initialize A initialState) !! c = None.
Proof.
  intros H Hc. pose proof (writeCpp_codes _ _ H) as (HT & HI & HP & HS).
  rewrite initialize_lookup_other; [reflexivity|..].
  - intros r Hr Heq. apply Hc. rewrite <- HT, <- Heq. apply in_map. exact Hr.
  - intros c' p Hin <-. apply Hc. right. exact (HI _ _ Hin).
  - intros c' p Hin <-. apply Hc. right. exact (HP _ _ Hin).
  - intros c' s Hin <-. apply Hc. apply HS in Hin as [Heq | Hin].
    + injection Heq as -> _. left. reflexivity.
    + apply synonymRowsFrom_spec in Hin as (i & obo & t & Hi & Ht & _ & ->).
      right. unfold allCodes. apply (allCodesFrom_In 0 obos i obo t Hi Ht).
Qed.

Lemma info_index_present c st i :
  infoMap_ st !! c = Some i -> info_index c st = (i, st).
Proof. intros H. unfold info_index. rewrite H. reflexivity. Qed.

Lemma info_index_absent c st :
  infoMap_ st !! c = None ->
  info_index c st = (CVTermInfo.default,
                     map_info (fun m => <[c := CVTermInfo.default]> m) st).
Proof. intros H. unfold info_index. rewrite H. reflexivity. Qed.

(** The first cvTermInfo call of a process. *)
Lemma unknown_code_first_call
    (obos : list OBO.t) (A : Artifact) (c : Z) (s pre num : string) :
  writeCpp obos = Some A ->
  (~ In c (CVID_Unknown :: allCodes obos) ->
     fst (cvTermInfo A c initialState) = CVTermInfo.default) /\
  fst (cvTermInfo A CVID_Unknown initialState) = unknownInfo /\
  (split_colon s = [pre; num] -> find_prefix pre (oboPrefixes A) = None ->
     fst (cvTermInfoStr A s initialState) = inr (fst (cvTermInfo A CVID_Unknown initialState))) /\
  CVTermInfo.default <> unknownInfo.
Proof.
  intros H. pose proof (initialize_lookup_unknown obos A initialState H) as HU.
  assert (Hi : ensure_init A initialState = initialize A initialState) by reflexivity.
  unfold cvTermInfo, cvTermInfoStr. rewrite Hi.
  rewrite (info_index_present _ _ _ HU). cbn [fst].
  split; [|split; [reflexivity | split]].
  - intros Hc. rewrite info_index_absent by exact (initialize_lookup_absent obos A c H Hc).
    reflexivity.
  - intros Hs Hp. rewrite Hs, Hp. reflexivity.
  - unfold CVTermInfo.default, unknownInfo. intros Heq. injection Heq. discriminate.
Qed.

(** C3: for cvgen psi-ms.obo unit.obo, code 7 has no row, and
    cvTermInfo(7) differs from cvTermInfo(CVID_Unknown). *)
Lemma unknown_code_not_sentinel_record :
  ~ In 7 (CVID_Unknown :: allCodes ex_obos) /\
  fst (cvTermInfo ex_artifact 7 initialState) = CVTermInfo.default /\
  fst (cvTermInfo ex_artifact 7 initialState)
    <> fst (cvTermInfo ex_artifact CVID_Unknown initialState).
Proof.
  split; [vm_compute; intros [H | [H | [H | [H | []]]]]; discriminate|].
  split; [vm_compute; reflexivity|].
  vm_compute. intros Heq. injection Heq. discriminate.
Qed.

(* --------------------------------------------------------------------- *)
(* What the accessors do to the state after initialize()                 *)
(* --------------------------------------------------------------------- *)

Lemma default_grown_refl {K} `{Countable K} {V} (d : V) (m : gmap K V) :
  default_grown d m m.
Proof. split; intros k v Hk; [exact Hk | left; exact Hk]. Qed.

Lemma default_grown_trans {K} `{Countable K} {V} (d : V) (m1 m2 m3 : gmap K V) :
  default_grown d m1 m2 -> default_grown d m2 m3 -> default_grown d m1 m3.
Proof.
  intros [F12 B12] [F23 B23]. split.
  - intros k v Hk. apply F23, F12, Hk.
  - intros k v Hk. destruct (B23 _ _ Hk) as [H2 | [H2 ->]].
    + exact (B12 _ _ H2).
    + destruct (m1 !! k) as [w|] eqn:E1.
      * rewrite (F12 _ _ E1) in H2. discriminate.
      * right. split; reflexivity.
Qed.

Lemma default_grown_insert {K} `{Countable K} {V} (d : V) (m : gmap K V) k :
  m !! k = None -> default_grown d m (<[k := d]> m).
Proof.
  intros Hk. split.
  - intros k' v Hv. destruct (decide (k = k')) as [<- | Hne].
    + rewrite Hk in Hv. discriminate.
    + rewrite lookup_insert_ne by exact Hne. exact Hv.
  - intros k' v Hv. destruct (decide (k = k')) as [<- | Hne].
    + rewrite lookup_insert_eq in Hv. injection Hv as <-. right. auto.
    + rewrite lookup_insert_ne in Hv by exact Hne. left. exact Hv.
Qed.

Lemma odi_refl st : only_default_insertions st st.
Proof.
  split; [reflexivity | split; [reflexivity | split; apply default_grown_refl]].
Qed.

Lemma odi_trans st1 st2 st3 :
  only_default_insertions st1 st2 -> only_default_insertions st2 st3 ->
  only_default_insertions st1 st3.
Proof.
  intros (I12 & C12 & M12 & V12) (I23 & C23 & M23 & V23).
  split; [congruence | split; [congruence | split]].
  - exact (default_grown_trans _ _ _ _ M12 M23).
  - exact (default_grown_trans _ _ _ _ V12 V23).
Qed.

Lemma ensure_init_initialized A st : initialized_ (ensure_init A st) = true.
Proof. unfold ensure_init. destruct (initialized_ st) eqn:E; [exact E | reflexivity]. Qed.

Lemma ensure_init_id A st : initialized_ st = true -> ensure_init A st = st.
Proof. intros H. unfold ensure_init. rewrite H. reflexivity. Qed.

Lemma info_index_odi c st : only_default_insertions st (snd (info_index c st)).
Proof.
  unfold info_index. destruct (infoMap_ st !! c) as [i|] eqn:E; [apply odi_refl|].
  split; [reflexivity | split; [reflexivity | split]].
  - apply default_grown_insert. exact E.
  - apply default_grown_refl.
Qed.

Lemma cv_odi A prefix st :
  initialized_ st = true -> only_default_insertions st (snd (cv A prefix st)).
Proof.
  intros Hi. unfold cv. rewrite ensure_init_id by exact Hi.
  destruct (cvMap_ st !! prefix) as [c|] eqn:E; [apply odi_refl|].
  split; [reflexivity | split; [reflexivity | split]].
  - apply default_grown_refl.
  - apply default_grown_insert. exact E.
Qed.

Lemma cvTermInfo_odi A c st :
  initialized_ st = true -> only_default_insertions st (snd (cvTermInfo A c st)).
Proof.
  intros Hi. unfold cvTermInfo. rewrite ensure_init_id by exact Hi. apply info_index_odi.
Qed.

Lemma cvTermInfoStr_odi A s st :
  initialized_ st = true -> only_default_insertions st (snd (cvTermInfoStr A s st)).
Proof.
  intros Hi. unfold cvTermInfoStr. rewrite ensure_init_id by exact Hi.
  destruct (split_colon s) as [|pre [|num [|x rest]]]; try apply odi_refl.
  destruct (find_prefix pre (oboPrefixes A)) as [i|].
  - destruct (stringToCVID num) as [v|]; [|apply odi_refl].
    pose proof (info_index_odi (to_CVID (((Z.of_nat i * enumBlockSize_) mod size_t_modulus + v)
                                  mod size_t_modulus)) st) as Hodi.
    destruct (info_index _ st) as [r st']. exact Hodi.
  - pose proof (info_index_odi CVID_Unknown st) as Hodi.
    destruct (info_index _ st) as [r st']. exact Hodi.
Qed.

Lemma isA_loop_odi (rec : Z -> State -> option (bool * State)) ps st b st' :
  (forall p s b' s', initialized_ s = true -> rec p s = Some (b', s') ->
     only_default_insertions s s') ->
  initialized_ st = true -> isA_loop rec ps st = Some (b, st') ->
  only_default_insertions st st'.
Proof.
  intros Hrec. revert st. induction ps as [|p ps IH]; intros st Hi Hl; simpl in Hl.
  - injection Hl as _ <-. apply odi_refl.
  - destruct (rec p st) as [[[|] s1]|] eqn:E; [| |discriminate].
    + injection Hl as _ <-. exact (Hrec _ _ _ _ Hi E).
    + pose proof (Hrec _ _ _ _ Hi E) as H1.
      apply (odi_trans _ _ _ H1). apply IH; [|exact Hl].
      destruct H1 as [H1 _]. congruence.
Qed.

Lemma cvIsA_odi A fuel child parent st b st' :
  initialized_ st = true -> cvIsA A fuel child parent st = Some (b, st') ->
  only_default_insertions st st'.
Proof.
  revert child st b st'. induction fuel as [|f IH]; intros child st b st' Hi H;
    simpl in H; [discriminate|].
  destruct (Z.eqb child parent).
  - injection H as _ <-. apply odi_refl.
  - pose proof (cvTermInfo_odi A child st Hi) as H1.
    destruct (cvTermInfo A child st) as [info s1] eqn:E. simpl in H1.
    apply (odi_trans _ _ _ H1).
    apply (isA_loop_odi (fun p s => cvIsA A f p parent s) (CVTermInfo.parentsIsA info) s1 b);
      [| |exact H].
    + intros p s b' s' Hs Hc. exact (IH _ _ _ _ Hs Hc).
    + destruct H1 as [H1 _]. congruence.
Qed.

(** C8: after initialize() for cvgen psi-ms.obo unit.obo, cvTermInfo(7)
    adds an entry under 7 to infoMap_, and cv(XX) adds one under XX to
    cvMap_. *)
Lemma lookups_mutate_maps :
  let st1 := initialize ex_artifact initialState in
  initialized_ st1 = true /\
  infoMap_ st1 !! 7 = None /\
  infoMap_ (snd (cvTermInfo ex_artifact 7 st1)) !! 7 = Some CVTermInfo.default /\
  cvMap_ st1 !! "XX" = None /\
  cvMap_ (snd (cv ex_artifact "XX" st1)) !! "XX" = Some CV.empty.
Proof.
  split; [reflexivity|].
  split; [vm_compute; reflexivity|].
  split; [vm_compute; reflexivity|].
  split; [vm_compute; reflexivity|].
  vm_compute; reflexivity.
Qed.

(* --------------------------------------------------------------------- *)
(* cvTermInfo(const string&): errors and the number conversion           *)
(* --------------------------------------------------------------------- *)

(** stringToCVID throws exactly when strtoul reads no digit or overflows. *)
Lemma stringToCVID_None_iff num :
  stringToCVID num = None <->
  snd (strtoul_scan num) = [] \/ ULONG_MAX < digits_value (snd (strtoul_scan num)).
Proof.
  unfold stringToCVID, strtoul.
  destruct (strtoul_scan num) as [neg ds]. cbn [snd].
  destruct ds as [|d ds].
  - simpl. split; [intros _; left; reflexivity | intros _; reflexivity].
  - destruct (ULONG_MAX <? digits_value (d :: ds)) eqn:E.
    + apply Z.ltb_lt in E. cbn [strtoul_value strtoul_converted strtoul_erange].
      rewrite orb_true_r.
      split; [intros _; right; exact E | intros _; reflexivity].
    + apply Z.ltb_ge in E. simpl. rewrite andb_false_r. simpl.
      split; [discriminate|]. intros [H | H]; [discriminate | lia].
Qed.


Lemma cvTermInfoStr_loaded A s st pre num i :
  split_colon s = [pre; num] -> find_prefix pre (oboPrefixes A) = Some i ->
  cvTermInfoStr A s st =
    match stringToCVID num with
    | None => (inl BadLexicalCast, ensure_init A st)
    | Some v =>
        let '(r, st') :=
          cvTermInfo A (to_CVID (((Z.of_nat i * enumBlockSize_) mod size_t_modulus + v)
                          mod size_t_modulus)) st in
        (inr r, st')
    end.
Proof.
  intros Hs Hp. unfold cvTermInfoStr, cvTermInfo. rewrite Hs, Hp. reflexivity.
Qed.

(** C4 (amended): cvTermInfo(id) throws runtime_error exactly when the
    id does not split on ':' into two tokens; for a loaded prefix it throws
    bad_lexical_cast exactly when strtoul reads no digit (after blanks and
    one sign) or the value exceeds ULONG_MAX, and returns a record
    otherwise: characters after the digits are ignored. *)
Theorem cvTermInfoStr_errors (A : Artifact) (s : string) (st : State) :
  (fst (cvTermInfoStr A s st) = inl (RuntimeError (split_error s)) <->
     length (split_colon s) <> 2%nat) /\
  (forall pre num i,
     split_colon s = [pre; num] -> find_prefix pre (oboPrefixes A) = Some i ->
     (fst (cvTermInfoStr A s st) = inl BadLexicalCast <->
        snd (strtoul_scan num) = [] \/
        ULONG_MAX < digits_value (snd (strtoul_scan num))) /\
     (~ (snd (strtoul_scan num) = [] \/
         ULONG_MAX < digits_value (snd (strtoul_scan num))) ->
        exists r, fst (cvTermInfoStr A s st) = inr r)).
Proof.
  split.
  - unfold cvTermInfoStr.
    destruct (split_colon s) as [|pre [|num [|x rest]]]; simpl;
      try (split; [intros _; discriminate | intros _; reflexivity]).
    split; [|intros H; contradiction].
    destruct (find_prefix pre (oboPrefixes A)) as [i|].
    + destruct (stringToCVID num) as [v|]; [|discriminate].
      destruct (info_index _ _) as [r st']. discriminate.
    + destruct (info_index _ _) as [r st']. discriminate.
  - intros pre num i Hs Hp. rewrite (cvTermInfoStr_loaded A s st pre num i Hs Hp).
    rewrite <- stringToCVID_None_iff.
    destruct (stringToCVID num) as [v|].
    + destruct (cvTermInfo A _ st) as [r st']. simpl. split.
      * split; discriminate.
      * intros _. exists r. reflexivity.
    + simpl. split; [split; reflexivity|]. intros H. contradiction.
Qed.

(** C4: cvTermInfo(MS:12abc) throws nothing: strtoul reads 12 and the
    lookup returns the (default) record of code 12, whereas
    cvTermInfo(MS:notanumber) throws bad_lexical_cast. *)
Lemma trailing_garbage_accepted :
  fst (cvTermInfoStr ex_artifact "MS:12abc" initialState) = inr CVTermInfo.default /\
  fst (cvTermInfoStr ex_artifact "MS:notanumber" initialState) = inl BadLexicalCast.
Proof. split; vm_compute; reflexivity. Qed.




(* --------------------------------------------------------------------- *)
(* cvIsA                                                                 *)
(* --------------------------------------------------------------------- *)

Lemma odi_parentsOf st st' :
  only_default_insertions st st' -> forall c, parentsOf st' c = parentsOf st c.
Proof.
  intros (_ & _ & [F B] & _) c. unfold parentsOf.
  destruct (infoMap_ st !! c) as [i|] eqn:E.
  - rewrite (F _ _ E). reflexivity.
  - destruct (infoMap_ st' !! c) as [i'|] eqn:E'; [|reflexivity].
    destruct (B _ _ E') as [H | [_ ->]]; [congruence | reflexivity].
Qed.

Lemma cvTermInfo_parents A c st :
  initialized_ st = true -> CVTermInfo.parentsIsA (fst (cvTermInfo A c st)) = parentsOf st c.
Proof.
  intros Hi. unfold cvTermInfo. rewrite ensure_init_id by exact Hi.
  unfold info_index, parentsOf. destruct (infoMap_ st !! c); reflexivity.
Qed.

Lemma first_true_ext r1 r2 ps :
  (forall q, In q ps -> r1 q = r2 q) -> first_true r1 ps = first_true r2 ps.
Proof.
  induction ps as [|q ps IH]; intros H; simpl; [reflexivity|].
  rewrite (H q (or_introl eq_refl)).
  destruct (r2 q) as [[|]|]; try reflexivity.
  apply IH. intros q' Hq'. apply H. right. exact Hq'.
Qed.

Lemma isA_pure_ext par1 par2 :
  (forall c, par1 c = par2 c) -> forall f c p, isA_pure par1 f c p = isA_pure par2 f c p.
Proof.
  intros H f. induction f as [|f IH]; intros c p; simpl; [reflexivity|].
  destruct (c =? p); [reflexivity|]. rewrite H.
  apply first_true_ext. intros q _. apply IH.
Qed.

(** On an initialized state, the value cvIsA returns is the one computed
    from the is-a parents the state holds; the entries the lookups add are
    defaults, which have no parents. *)
Lemma cvIsA_pure A f c p st :
  initialized_ st = true ->
  option_map fst (cvIsA A f c p st) = isA_pure (parentsOf st) f c p.
Proof.
  revert c st. induction f as [|f IH]; intros c st Hi; [reflexivity|].
  simpl. destruct (c =? p); [reflexivity|].
  pose proof (cvTermInfo_parents A c st Hi) as HP.
  pose proof (cvTermInfo_odi A c st Hi) as HO.
  destruct (cvTermInfo A c st) as [info s1]. simpl in HP, HO. rewrite HP.
  assert (Hs1 : forall q, parentsOf s1 q = parentsOf st q) by exact (odi_parentsOf _ _ HO).
  assert (Hi1 : initialized_ s1 = true) by (destruct HO as [HO _]; congruence).
  clear HP HO. generalize (parentsOf st c) as ps.
  intros ps. revert s1 Hs1 Hi1. induction ps as [|q ps IHps]; intros s1 Hs1 Hi1; simpl;
    [reflexivity|].
  pose proof (IH q s1 Hi1) as Hq. rewrite (isA_pure_ext _ _ Hs1) in Hq.
  destruct (cvIsA A f q p s1) as [[[|] s2]|] eqn:E; simpl in Hq; rewrite <- Hq;
    [reflexivity | | reflexivity].
  pose proof (cvIsA_odi A f q p s1 false s2 Hi1 E) as HO2.
  apply IHps.
  - intros q'. rewrite (odi_parentsOf _ _ HO2). apply Hs1.
  - destruct HO2 as [HO2 _]. congruence.
Qed.

Lemma isA_returns_pure A st c p b :
  initialized_ st = true ->
  (isA_returns A st c p b <-> exists f, isA_pure (parentsOf st) f c p = Some b).
Proof.
  intros Hi. unfold isA_returns. split.
  - intros (f & st' & H). exists f. rewrite <- (cvIsA_pure A f c p st Hi), H. reflexivity.
  - intros (f & H). rewrite <- (cvIsA_pure A f c p st Hi) in H.
    destruct (cvIsA A f c p st) as [[b' st']|] eqn:E; [|discriminate].
    injection H as <-. exists f, st'. exact E.
Qed.

Lemma first_true_mono (r r' : Z -> option bool) ps b :
  (forall q b', r q = Some b' -> r' q = Some b') ->
  first_true r ps = Some b -> first_true r' ps = Some b.
Proof.
  intros H. induction ps as [|q ps IH]; simpl; [tauto|].
  destruct (r q) as [[|]|] eqn:E; [| |discriminate]; rewrite (H _ _ E); auto.
Qed.

Lemma isA_pure_mono par f c p b :
  isA_pure par f c p = Some b -> isA_pure par (S f) c p = Some b.
Proof.
  revert c b. induction f as [|f IH]; intros c b H; [discriminate|].
  change (isA_pure par (S (S f)) c p)
    with (if Z.eqb c p then Some true
          else first_true (fun q => isA_pure par (S f) q p) (par c)).
  simpl in H. destruct (c =? p); [exact H|].
  apply (first_true_mono _ _ _ _ (fun q b' Hq => IH q b' Hq) H).
Qed.

Lemma isA_pure_mono_le par f f' c p b :
  (f <= f')%nat -> isA_pure par f c p = Some b -> isA_pure par f' c p = Some b.
Proof. induction 1 as [|m _ IH]; [tauto|]. intros Hf. apply isA_pure_mono. auto. Qed.

Lemma first_true_true r ps : first_true r ps = Some true -> exists q, In q ps /\ r q = Some true.
Proof.
  induction ps as [|q ps IH]; simpl; [discriminate|].
  destruct (r q) as [[|]|] eqn:E; intros H; [| |discriminate].
  - exists q. auto.
  - destruct (IH H) as (q' & Hq' & Hr). exists q'. auto.
Qed.

Lemma first_true_false r ps : first_true r ps = Some false -> forall q, In q ps -> r q = Some false.
Proof.
  induction ps as [|q ps IH]; simpl; [intros _ q []|].
  destruct (r q) as [[|]|] eqn:E; intros H; try discriminate.
  intros q' [<- | Hq']; [exact E | exact (IH H q' Hq')].
Qed.

Lemma first_true_total r ps :
  (forall q, In q ps -> exists b, r q = Some b) -> exists b, first_true r ps = Some b.
Proof.
  induction ps as [|q ps IH]; intros H; simpl; [eauto|].
  destruct (H q (or_introl eq_refl)) as ([|] & E); rewrite E; [eauto|].
  apply IH. intros q' Hq'. apply H. right. exact Hq'.
Qed.

Lemma isA_pure_refl_value par f c b : isA_pure par f c c = Some b -> b = true.
Proof.
  destruct f as [|f]; simpl; [discriminate|]. rewrite Z.eqb_refl. congruence.
Qed.

(** The recursion equation, for the calls that return. *)
Lemma isA_pure_equation par c p b :
  c <> p -> (exists f, isA_pure par f c p = Some b) ->
  (b = true <-> exists q, In q (par c) /\ exists g, isA_pure par g q p = Some true).
Proof.
  intros Hne (f & Hf). destruct f as [|f]; [discriminate|]. simpl in Hf.
  replace (c =? p) with false in Hf by (symmetry; apply Z.eqb_neq; exact Hne).
  split.
  - intros ->. destruct (first_true_true _ _ Hf) as (q & Hq & Hr). eauto.
  - intros (q & Hq & g & Hg). destruct b; [reflexivity|].
    pose proof (first_true_false _ _ Hf q Hq) as Hfalse.
    pose proof (isA_pure_mono_le par f (Nat.max f g) q p false ltac:(lia) Hfalse) as H1.
    pose proof (isA_pure_mono_le par g (Nat.max f g) q p true ltac:(lia) Hg) as H2.
    congruence.
Qed.

Lemma isA_pure_parent par a b0 r :
  In b0 (par a) -> (exists f, isA_pure par f a b0 = Some r) -> r = true.
Proof.
  intros Hb (f & Hf). destruct (Z.eq_dec a b0) as [<- | Hne].
  - exact (isA_pure_refl_value _ _ _ _ Hf).
  - apply (isA_pure_equation par a b0 r Hne (ex_intro _ f Hf)).
    exists b0. split; [exact Hb|]. exists 1%nat. simpl. rewrite Z.eqb_refl. reflexivity.
Qed.

Lemma isA_pure_rank par (rank : Z -> nat) :
  (forall c q, In q (par c) -> (rank q < rank c)%nat) ->
  forall n c p, (rank c < n)%nat -> exists b, isA_pure par n c p = Some b.
Proof.
  intros Hr n. induction n as [|n IH]; intros c p Hc; [lia|].
  simpl. destruct (c =? p); [eauto|].
  apply first_true_total. intros q Hq. apply IH. specialize (Hr c q Hq). lia.
Qed.

(** With an is-a cycle through 1 and 2 and the parents of 1 listed as 2
    then 3, no depth makes cvIsA(1,3) or cvIsA(2,3) return. *)
Lemma isA_pure_cycle par :
  par 1 = [2; 3] -> par 2 = [1] ->
  forall f, isA_pure par f 1 3 = None /\ isA_pure par f 2 3 = None.
Proof.
  intros H1 H2 f. induction f as [|f [IH1 IH2]]; [split; reflexivity|].
  simpl. rewrite H1, H2. simpl. rewrite IH1, IH2. split; reflexivity.
Qed.

(** C2: term 1 has the direct is-a parents 2 and 3, term 2 has the parent
    1; cvIsA(3,3) returns true, but cvIsA(1,3) never returns: it recurses
    through cvIsA(2,3), cvIsA(1,3), ... without end. *)
Lemma cyclic_parent_never_returns :
  parentsOf (initialize ex_cyclic_artifact initialState) 1 = [2; 3] /\
  isA_returns ex_cyclic_artifact (initialize ex_cyclic_artifact initialState) 3 3 true /\
  ~ (exists b, isA_returns ex_cyclic_artifact (initialize ex_cyclic_artifact initialState) 1 3 b).
Proof.
  set (st1 := initialize ex_cyclic_artifact initialState).
  assert (Hi : initialized_ st1 = true) by reflexivity.
  assert (H1 : parentsOf st1 1 = [2; 3]) by (vm_compute; reflexivity).
  assert (H2 : parentsOf st1 2 = [1]) by (vm_compute; reflexivity).
  split; [exact H1|]. split.
  - exists 1%nat, st1. reflexivity.
  - intros (b & Hr). apply (isA_returns_pure _ _ _ _ _ Hi) in Hr as (f & Hf).
    rewrite (proj1 (isA_pure_cycle _ H1 H2 f)) in Hf. discriminate.
Qed.

(* --------------------------------------------------------------------- *)
(* String helpers of the generator                                       *)
(* --------------------------------------------------------------------- *)

Lemma las_append a b :
  String.list_ascii_of_string (String.append a b) =
  String.list_ascii_of_string a ++ String.list_ascii_of_string b.
Proof. induction a as [|c a IH]; simpl; [reflexivity | rewrite IH; reflexivity]. Qed.

Lemma las_string_map f s :
  String.list_ascii_of_string (string_map f s) = map f (String.list_ascii_of_string s).
Proof. induction s as [|c s IH]; simpl; [reflexivity | rewrite IH; reflexivity]. Qed.

Lemma length_string_map f s : String.length (string_map f s) = String.length s.
Proof. induction s as [|c s IH]; simpl; [reflexivity | rewrite IH; reflexivity]. Qed.

Lemma string_map_id f s :
  Forall (fun c => f c = c) (String.list_ascii_of_string s) -> string_map f s = s.
Proof.
  induction s as [|c s IH]; simpl; intros H; [reflexivity|].
  inversion H as [|x l Hc Hs]; subst. rewrite Hc, IH by exact Hs. reflexivity.
Qed.

Lemma islower_toupper c : islower (toupper c) = false.
Proof. destruct c as [[] [] [] [] [] [] [] []]; reflexivity. Qed.

Lemma toupper_not_lower c : islower c = false -> toupper c = c.
Proof. unfold toupper, islower. intros H. rewrite H. reflexivity. Qed.

(** includeGuardString(basename) is _ then the basename upper-cased
    character by character (a lowercase ASCII letter becomes the
    uppercase letter 32 below it, every other character stays), then
    _HPP_; the middle part has the basename's length and no lowercase
    letter, and is the basename itself when it has none. *)
Theorem includeGuardString_shape (basename : string) :
  exists u, includeGuardString basename = String.append "_" (String.append u "_HPP_") /\
    String.list_ascii_of_string u =
      map (fun c => if islower c then Ascii.ascii_of_nat (Ascii.nat_of_ascii c - 32) else c)
        (String.list_ascii_of_string basename) /\
    String.length u = String.length basename /\
    Forall (fun c => islower c = false) (String.list_ascii_of_string u) /\
    (Forall (fun c => islower c = false) (String.list_ascii_of_string basename) ->
     u = basename).
Proof.
  exists (string_map toupper basename). split; [reflexivity|].
  split; [rewrite las_string_map; reflexivity|].
  split; [apply length_string_map|]. split.
  - rewrite las_string_map. apply List.Forall_forall. intros c Hc.
    apply in_map_iff in Hc as (c' & <- & _). apply islower_toupper.
  - intros H. apply string_map_id. eapply Forall_impl; [exact H|].
    intros c Hc. apply toupper_not_lower. exact Hc.
Qed.

(** enumName(prefix, name) is prefix, _, then name character by
    character with each letter or digit kept and every other character
    replaced by _ (same length; unchanged when name is alphanumeric). *)
Theorem enumName_identifier (prefix name : string) :
  exists s, enumName prefix name = String.append prefix (String.append "_" s) /\
    String.list_ascii_of_string s =
      map (fun c => if isalnum c then c else "_"%char) (String.list_ascii_of_string name) /\
    String.length s = String.length name /\
    Forall (fun c => isalnum c || Ascii.eqb c "_" = true) (String.list_ascii_of_string s) /\
    (Forall (fun c => isalnum c = true) (String.list_ascii_of_string name) -> s = name).
Proof.
  exists (string_map toAllowableChar name). split; [reflexivity|].
  split; [rewrite las_string_map; reflexivity|].
  split; [apply length_string_map|]. split.
  - rewrite las_string_map. apply List.Forall_forall. intros c Hc.
    apply in_map_iff in Hc as (c' & <- & _). unfold toAllowableChar.
    destruct (isalnum c') eqn:E; [rewrite E; reflexivity|]. reflexivity.
  - intros H. apply string_map_id. eapply Forall_impl; [exact H|].
    intros c Hc. unfold toAllowableChar. rewrite Hc. reflexivity.
Qed.

Lemma shortName_fold (syns : list string) (r : string) (pre post : list string) :
  Forall (fun x => String.length r < String.length x)%nat pre ->
  Forall (fun x => String.length r <= String.length x)%nat post ->
  exists pre' post',
    pre ++ r :: post ++ syns = pre' ++ fold_left (fun result s =>
      if Nat.ltb (String.length s) (String.length result) then s else result) syns r :: post' /\
    Forall (fun x => String.length (fold_left (fun result s =>
      if Nat.ltb (String.length s) (String.length result) then s else result) syns r)
      < String.length x)%nat pre' /\
    Forall (fun x => String.length (fold_left (fun result s =>
      if Nat.ltb (String.length s) (String.length result) then s else result) syns r)
      <= String.length x)%nat post'.
Proof.
  revert r pre post. induction syns as [|s syns IH]; intros r pre post Hpre Hpost.
  - exists pre, post. rewrite app_nil_r. auto.
  - simpl. destruct (Nat.ltb (String.length s) (String.length r)) eqn:E.
    + apply Nat.ltb_lt in E.
      destruct (IH s (pre ++ r :: post) [] ) as (pre' & post' & Heq & H1 & H2).
      * apply Forall_app. split; [eapply Forall_impl; [exact Hpre|]; simpl; lia|].
        constructor; [exact E|]. eapply Forall_impl; [exact Hpost|]. simpl. lia.
      * constructor.
      * exists pre', post'. split; [|auto]. rewrite <- Heq.
        rewrite <- app_assoc. reflexivity.
    + apply Nat.ltb_ge in E.
      destruct (IH r pre (post ++ [s])) as (pre' & post' & Heq & H1 & H2);
        [exact Hpre | apply Forall_app; split; [exact Hpost | constructor; [exact E | constructor]]|].
      exists pre', post'. split; [|auto]. rewrite <- Heq.
      rewrite <- app_assoc. reflexivity.
Qed.

(** CVTermInfo::shortName() is the first of name, exactSynonyms... of
    least length: every entry before it is strictly longer, every entry
    is at least as long. *)
Theorem shortName_first_shortest (i : CVTermInfo.t) :
  exists pre post,
    CVTermInfo.name i :: CVTermInfo.exactSynonyms i = pre ++ shortName i :: post /\
    Forall (fun x => String.length (shortName i) < String.length x)%nat pre /\
    Forall (fun x => String.length (shortName i) <= String.length x)%nat post.
Proof.
  destruct (shortName_fold (CVTermInfo.exactSynonyms i) (CVTermInfo.name i) [] []
              (List.Forall_nil _) (List.Forall_nil _)) as (pre & post & Heq & H1 & H2).
  exists pre, post. split; [exact Heq | split; assumption].
Qed.

Lemma take_until_colon_spec s :
  no_colon (take_until_colon s) /\
  (s = take_until_colon s \/
   exists rest, s = String.append (take_until_colon s) (String ":" rest)).
Proof.
  unfold no_colon. induction s as [|c s [IH1 IH2]]; simpl.
  - split; [intros [] | left; reflexivity].
  - destruct (Ascii.eqb c ":") eqn:E.
    + apply Ascii.eqb_eq in E. subst c. split; [intros [] | right; exists s; reflexivity].
    + apply Ascii.eqb_neq in E. split.
      * intros [H | H]; [exact (E H) | exact (IH1 H)].
      * destruct IH2 as [H | (rest & H)]; [left; f_equal; exact H|].
        right. exists rest. rewrite H at 1. reflexivity.
Qed.

Lemma take_until_colon_append a b :
  no_colon a -> take_until_colon (String.append a (String ":" b)) = a.
Proof.
  unfold no_colon. induction a as [|c a IH]; simpl; intros H; [reflexivity|].
  destruct (Ascii.eqb c ":") eqn:E.
  - apply Ascii.eqb_eq in E. subst c. exfalso. apply H. left. reflexivity.
  - rewrite IH; [reflexivity|]. intros Ha. apply H. right. exact Ha.
Qed.

(** CVTermInfo::prefix() is the part of id before its first colon (all
    of id when it has none), and it has no colon; for an id of the
    termInfos_ table it gives back the term prefix when that has no
    colon. *)
Theorem CVTermInfo_prefix_spec :
  (forall i, no_colon (CVTermInfo_prefix i) /\
     (CVTermInfo.id i = CVTermInfo_prefix i \/
      exists rest, CVTermInfo.id i = String.append (CVTermInfo_prefix i) (String ":" rest))) /\
  (forall i t, no_colon (Term.prefix t) -> CVTermInfo.id i = idString t ->
     CVTermInfo_prefix i = Term.prefix t).
Proof.
  split.
  - intros i. apply take_until_colon_spec.
  - intros i t Hp Hid. unfold CVTermInfo_prefix. rewrite Hid. unfold idString.
    apply take_until_colon_append. exact Hp.
Qed.

(* --------------------------------------------------------------------- *)
(* The records initialize() builds                                       *)
(* --------------------------------------------------------------------- *)

Lemma fst_info_index c st :
  fst (info_index c st) = default CVTermInfo.default (infoMap_ st !! c).
Proof. unfold info_index. destruct (infoMap_ st !! c); reflexivity. Qed.

Lemma view_info_update f k m c :
  default CVTermInfo.default (info_update f k m !! c) =
  if Z.eqb k c then f (default CVTermInfo.default (m !! c))
  else default CVTermInfo.default (m !! c).
Proof.
  unfold info_update. destruct (Z.eqb_spec k c) as [<- | Hne].
  - rewrite lookup_insert_eq. reflexivity.
  - rewrite lookup_insert_ne by exact Hne. reflexivity.
Qed.

Lemma init_terms_view rows st c :
  default CVTermInfo.default (infoMap_ (foldl init_row st rows) !! c) =
  match last_row c rows with
  | Some r => CVTermInfo.mk (TermInfo.cvid r) (TermInfo.id r) (TermInfo.name r)
                (TermInfo.def r) [] [] []
  | None => default CVTermInfo.default (infoMap_ st !! c)
  end.
Proof.
  revert st. induction rows as [|r rs IH]; intros st; [reflexivity|].
  simpl. rewrite IH. destruct (last_row c rs) as [x|]; [reflexivity|].
  simpl. destruct (Z.eqb_spec (TermInfo.cvid r) c) as [<- | Hne].
  - rewrite lookup_insert_eq. reflexivity.
  - rewrite lookup_insert_ne by exact Hne. reflexivity.
Qed.

Lemma init_isA_view (rows : list (Z * Z)) st c :
  let v := default CVTermInfo.default (infoMap_ st !! c) in
  default CVTermInfo.default (infoMap_ (foldl (fun st '(c, p) =>
      map_info (info_update (CVTermInfo.push_isA p) c) st) st rows) !! c) =
  CVTermInfo.mk (CVTermInfo.cvid v) (CVTermInfo.id v) (CVTermInfo.name v) (CVTermInfo.def v)
    (CVTermInfo.parentsIsA v ++ rows_for c rows) (CVTermInfo.parentsPartOf v)
    (CVTermInfo.exactSynonyms v).
Proof.
  revert st. induction rows as [|[c' p] rs IH]; intros st; simpl.
  - rewrite app_nil_r. destruct (default _ _); reflexivity.
  - rewrite IH. cbn [map_info infoMap_]. rewrite view_info_update.
    unfold rows_for. simpl. destruct (c' =? c); simpl; [|reflexivity].
    rewrite <- app_assoc. reflexivity.
Qed.

Lemma init_partOf_view (rows : list (Z * Z)) st c :
  let v := default CVTermInfo.default (infoMap_ st !! c) in
  default CVTermInfo.default (infoMap_ (foldl (fun st '(c, p) =>
      map_info (info_update (CVTermInfo.push_partOf p) c) st) st rows) !! c) =
  CVTermInfo.mk (CVTermInfo.cvid v) (CVTermInfo.id v) (CVTermInfo.name v) (CVTermInfo.def v)
    (CVTermInfo.parentsIsA v) (CVTermInfo.parentsPartOf v ++ rows_for c rows)
    (CVTermInfo.exactSynonyms v).
Proof.
  revert st. induction rows as [|[c' p] rs IH]; intros st; simpl.
  - rewrite app_nil_r. destruct (default _ _); reflexivity.
  - rewrite IH. cbn [map_info infoMap_]. rewrite view_info_update.
    unfold rows_for. simpl. destruct (c' =? c); simpl; [|reflexivity].
    rewrite <- app_assoc. reflexivity.
Qed.

Lemma init_synonyms_view (rows : list (Z * string)) st c :
  let v := default CVTermInfo.default (infoMap_ st !! c) in
  default CVTermInfo.default (infoMap_ (foldl (fun st '(c, s) =>
      map_info (info_update (CVTermInfo.push_synonym s) c) st) st rows) !! c) =
  CVTermInfo.mk (CVTermInfo.cvid v) (CVTermInfo.id v) (CVTermInfo.name v) (CVTermInfo.def v)
    (CVTermInfo.parentsIsA v) (CVTermInfo.parentsPartOf v)
    (CVTermInfo.exactSynonyms v ++ rows_for c rows).
Proof.
  revert st. induction rows as [|[c' s] rs IH]; intros st; simpl.
  - rewrite app_nil_r. destruct (default _ _); reflexivity.
  - rewrite IH. cbn [map_info infoMap_]. rewrite view_info_update.
    unfold rows_for. simpl. destruct (c' =? c); simpl; [|reflexivity].
    rewrite <- app_assoc. reflexivity.
Qed.

Lemma initialize_view A c :
  default CVTermInfo.default (infoMap_ (initialize A initialState) !! c) = termInfo_record A c.
Proof.
  unfold initialize. cbn [infoMap_]. rewrite init_cvs_infoMap.
  unfold init_synonyms, init_partOf, init_isA, init_terms.
  rewrite init_synonyms_view, init_partOf_view, init_isA_view, init_terms_view.
  unfold termInfo_record. destruct (last_row c (termInfosA A)); reflexivity.
Qed.

(** On the first call, cvTermInfo(code) returns the record built from the
    tables: cvid, id, name and def of the last termInfos_ row with that
    code (those of a default CVTermInfo when there is none), and as
    parentsIsA, parentsPartOf and exactSynonyms the second components of
    the relation rows for the code, in table order; the is-a parents cvIsA
    follows are those rows. *)
Theorem cvTermInfo_first_call_record (A : Artifact) (c : Z) :
  fst (cvTermInfo A c initialState) = termInfo_record A c /\
  parentsOf (initialize A initialState) c = rows_for c (relationsIsA A).
Proof.
  split.
  - unfold cvTermInfo. rewrite fst_info_index. apply initialize_view.
  - assert (H : parentsOf (initialize A initialState) c =
                CVTermInfo.parentsIsA (default CVTermInfo.default
                  (infoMap_ (initialize A initialState) !! c))).
    { unfold parentsOf. destruct (infoMap_ _ !! c); reflexivity. }
    rewrite H, initialize_view. unfold termInfo_record.
    destruct (last_row c (termInfosA A)); reflexivity.
Qed.

(* --------------------------------------------------------------------- *)
(* cvMap_ after initialize()                                             *)
(* --------------------------------------------------------------------- *)

Lemma view_cv_update f k m p :
  default CV.empty (cv_update f k m !! p) =
  if String.eqb k p then f (default CV.empty (m !! p)) else default CV.empty (m !! p).
Proof.
  unfold cv_update. destruct (String.eqb_spec k p) as [<- | Hne].
  - rewrite lookup_insert_eq. reflexivity.
  - rewrite lookup_insert_ne by exact Hne. reflexivity.
Qed.

Lemma init_versions_view (vs : list (string * string)) st p :
  let v := default CV.empty (cvMap_ st !! p) in
  let sel := List.filter (fun pv => String.eqb (fst pv) p) vs in
  default CV.empty (cvMap_ (foldl (fun st '(prefix, version) =>
      map_cv (cv_update (CV.set_version version) prefix)
        (map_cv (cv_update (CV.set_id prefix) prefix) st)) st vs) !! p) =
  match sel with
  | [] => v
  | _ => CV.mk p (CV.URI v) (CV.fullName v) (List.last (map snd sel) "")
  end.
Proof.
  revert st. induction vs as [|[q ver] rest IH]; intros st; simpl; [reflexivity|].
  rewrite IH. cbn [map_cv cvMap_]. rewrite !view_cv_update.
  destruct (String.eqb_spec q p) as [-> | Hne]; simpl.
  - destruct (List.filter _ rest) as [|x xs] eqn:E; reflexivity.
  - reflexivity.
Qed.

Lemma init_relations_cvMap A st :
  cvMap_ (init_synonyms A (init_partOf A (init_isA A (init_terms A st)))) = cvMap_ st.
Proof.
  unfold init_synonyms.
  apply (foldl_invariant _ (fun s => cvMap_ s = cvMap_ st)).
  2: { intros s [c s'] _ Hs. exact Hs. }
  unfold init_partOf.
  apply (foldl_invariant _ (fun s => cvMap_ s = cvMap_ st)).
  2: { intros s [c p] _ Hs. exact Hs. }
  unfold init_isA.
  apply (foldl_invariant _ (fun s => cvMap_ s = cvMap_ st)).
  2: { intros s [c p] _ Hs. exact Hs. }
  unfold init_terms.
  apply (foldl_invariant _ (fun s => cvMap_ s = cvMap_ st)).
  2: { intros s r _ Hs. exact Hs. }
  reflexivity.
Qed.

(** On the first call, cv(prefix) returns: as id the prefix when an OBO
    with that prefix was loaded (empty otherwise), as version the version
    extracted for the last such OBO (empty otherwise), and fullName and
    URI only for MS and UO; for any other prefix with no loaded OBO it is
    an empty CV. *)
Theorem cv_first_call_record (obos : list OBO.t) (A : Artifact) (p : string) :
  writeCpp obos = Some A ->
  fst (cv A p initialState) = cv_record A p /\
  cv_record A p =
    CV.mk (if existsb (fun obo => String.eqb (OBO.prefix obo) p) obos then p else "")
          (if String.eqb p "MS" then MS_URI else if String.eqb p "UO" then UO_URI else "")
          (if String.eqb p "MS" then MS_fullName
           else if String.eqb p "UO" then UO_fullName else "")
          (List.last (map (fun obo => extract_version (OBO.header obo))
                        (List.filter (fun obo => String.eqb (OBO.prefix obo) p) obos)) "") /\
  (p <> "MS" -> p <> "UO" -> ~ In p (map OBO.prefix obos) ->
   CV_isEmpty (fst (cv A p initialState)) = true).
Proof.
  intros H. apply writeCpp_Some in H as (_ & _ & _ & _ & HV & _).
  assert (Hrec : fst (cv A p initialState) = cv_record A p).
  { assert (E : default CV.empty (cvMap_ (initialize A initialState) !! p) = cv_record A p).
    { unfold initialize. cbn [cvMap_]. unfold init_cvs.
      rewrite init_versions_view. cbn [map_cv cvMap_]. rewrite !view_cv_update.
      rewrite init_relations_cvMap. cbn [cvMap_ initialState]. rewrite lookup_empty.
      unfold cv_record.
      destruct (List.filter _ (cvVersions A)) as [|x xs];
        repeat match goal with
               | |- context [String.eqb ?a ?b] =>
                   destruct (String.eqb_spec a b); subst; try congruence
               end; reflexivity. }
    rewrite <- E. unfold cv. change (ensure_init A initialState) with (initialize A initialState).
    destruct (cvMap_ (initialize A initialState) !! p); reflexivity. }
  assert (Hsel : forall l : list OBO.t,
            List.filter (fun pv => String.eqb (fst pv) p)
              (map (fun obo => (OBO.prefix obo, extract_version (OBO.header obo))) l) =
            map (fun obo => (OBO.prefix obo, extract_version (OBO.header obo)))
              (List.filter (fun obo => String.eqb (OBO.prefix obo) p) l)).
  { induction l as [|o l IHl]; simpl; [reflexivity|].
    destruct (String.eqb (OBO.prefix o) p); simpl; rewrite IHl; reflexivity. }
  assert (Hform : cv_record A p =
    CV.mk (if existsb (fun obo => String.eqb (OBO.prefix obo) p) obos then p else "")
          (if String.eqb p "MS" then MS_URI else if String.eqb p "UO" then UO_URI else "")
          (if String.eqb p "MS" then MS_fullName
           else if String.eqb p "UO" then UO_fullName else "")
          (List.last (map (fun obo => extract_version (OBO.header obo))
                        (List.filter (fun obo => String.eqb (OBO.prefix obo) p) obos)) "")).
  { unfold cv_record. rewrite HV, Hsel, map_map. cbn [snd].
    f_equal. clear. induction obos as [|o l IHl]; simpl; [reflexivity|].
    destruct (String.eqb (OBO.prefix o) p); simpl; [reflexivity | exact IHl]. }
  split; [exact Hrec|]. split; [exact Hform|].
  intros HM HU Hnot. rewrite Hrec, Hform.
  replace (existsb (fun obo => String.eqb (OBO.prefix obo) p) obos) with false.
  2: { symmetry. clear - Hnot. apply not_true_iff_false. intros Hex. apply existsb_exists in Hex as (o & Ho & Hp).
       apply String.eqb_eq in Hp. apply Hnot. apply in_map_iff. exists o. auto. }
  replace (List.filter (fun obo => String.eqb (OBO.prefix obo) p) obos) with (@nil OBO.t).
  2: { symmetry. clear - Hnot. induction obos as [|o l IHl]; [reflexivity|]. simpl.
       destruct (String.eqb_spec (OBO.prefix o) p) as [Hp | Hp].
       - exfalso. apply Hnot. left. exact Hp.
       - apply IHl. intros Hin. apply Hnot. right. exact Hin. }
  apply String.eqb_neq in HM. apply String.eqb_neq in HU. rewrite HM, HU. reflexivity.
Qed.

Lemma cv_first_call_record_witness :
  writeCpp ex_obos = Some ex_artifact /\
  CV_isEmpty (fst (cv ex_artifact "XY" initialState)) = true.
Proof.
  assert (HA : writeCpp ex_obos = Some ex_artifact) by (vm_compute; reflexivity).
  split; [exact HA|].
  apply (proj2 (proj2 (cv_first_call_record ex_obos ex_artifact "XY" HA)));
    [discriminate | discriminate | simpl; intros [H|[H|[]]]; discriminate].
Defined.

(* --------------------------------------------------------------------- *)
(* Lookups after earlier lookups                                         *)
(* --------------------------------------------------------------------- *)

Lemma default_grown_view {K} `{Countable K} {V} (d : V) (m m' : gmap K V) k :
  default_grown d m m' -> default d (m' !! k) = default d (m !! k).
Proof.
  intros [F B]. destruct (m !! k) as [v|] eqn:E.
  - rewrite (F _ _ E). reflexivity.
  - destruct (m' !! k) as [v'|] eqn:E'; [|reflexivity].
    destruct (B _ _ E') as [H1 | [_ ->]]; [congruence | reflexivity].
Qed.

Lemma info_index_fst_odi c st st' :
  only_default_insertions st st' -> fst (info_index c st') = fst (info_index c st).
Proof.
  intros (_ & _ & HM & _). rewrite !fst_info_index. apply (default_grown_view _ _ _ _ HM).
Qed.

(** After initialization, what cvTermInfo(code), cv(prefix),
    cvTermInfo(id) and cvIsA return does not depend on the lookups made
    before (which only add default entries), and repeating a lookup
    returns the same value and leaves the state as the first one left it. *)
Theorem lookups_history_independent (A : Artifact) (st st' : State) :
  initialized_ st = true -> only_default_insertions st st' ->
  (forall c, fst (cvTermInfo A c st') = fst (cvTermInfo A c st)) /\
  (forall p, fst (cv A p st') = fst (cv A p st)) /\
  (forall s, fst (cvTermInfoStr A s st') = fst (cvTermInfoStr A s st)) /\
  (forall f c p, option_map fst (cvIsA A f c p st') = option_map fst (cvIsA A f c p st)) /\
  (forall c, cvTermInfo A c (snd (cvTermInfo A c st)) = cvTermInfo A c st) /\
  (forall p, cv A p (snd (cv A p st)) = cv A p st).
Proof.
  intros Hi HO.
  assert (Hi' : initialized_ st' = true) by (destruct HO as [H _]; congruence).
  split; [|split; [|split; [|split; [|split]]]].
  - intros c. unfold cvTermInfo. rewrite !ensure_init_id by assumption.
    apply info_index_fst_odi. exact HO.
  - intros p. unfold cv. rewrite !ensure_init_id by assumption.
    destruct HO as (_ & _ & _ & HC). pose proof (default_grown_view _ _ _ p HC) as E.
    destruct (cvMap_ st !! p) eqn:E1; destruct (cvMap_ st' !! p) eqn:E2;
      simpl in E |- *; congruence.
  - intros s. unfold cvTermInfoStr. rewrite !ensure_init_id by assumption.
    destruct (split_colon s) as [|pre [|num [|x rest]]]; try reflexivity.
    destruct (find_prefix pre (oboPrefixes A)) as [i|].
    + destruct (stringToCVID num) as [v|]; [|reflexivity].
      pose proof (info_index_fst_odi (to_CVID (((Z.of_nat i * enumBlockSize_) mod size_t_modulus + v)
                    mod size_t_modulus)) st st' HO) as E.
      destruct (info_index _ st'), (info_index _ st). simpl in E |- *. congruence.
    + pose proof (info_index_fst_odi CVID_Unknown st st' HO) as E.
      destruct (info_index _ st'), (info_index _ st). simpl in E |- *. congruence.
  - intros f c p. rewrite (cvIsA_pure A f c p st' Hi'), (cvIsA_pure A f c p st Hi).
    apply isA_pure_ext. apply odi_parentsOf. exact HO.
  - intros c. unfold cvTermInfo. rewrite (ensure_init_id A st Hi).
    unfold info_index. destruct (infoMap_ st !! c) as [i|] eqn:E.
    + cbn [snd]. rewrite (ensure_init_id A st Hi), E. reflexivity.
    + cbn [snd]. unfold ensure_init, map_info. cbn [initialized_ infoMap_]. rewrite Hi.
      cbn [infoMap_]. rewrite lookup_insert_eq. reflexivity.
  - intros p. unfold cv. rewrite (ensure_init_id A st Hi).
    destruct (cvMap_ st !! p) as [v|] eqn:E.
    + cbn [snd]. rewrite (ensure_init_id A st Hi), E. reflexivity.
    + cbn [snd]. unfold ensure_init, map_cv. cbn [initialized_ cvMap_]. rewrite Hi.
      cbn [cvMap_]. rewrite lookup_insert_eq. reflexivity.
Qed.

Lemma lookups_history_independent_witness :
  initialized_ (initialize ex_artifact initialState) = true /\
  only_default_insertions (initialize ex_artifact initialState)
    (snd (cvTermInfo ex_artifact 7 (initialize ex_artifact initialState))) /\
  fst (cvTermInfo ex_artifact 1 (snd (cvTermInfo ex_artifact 7
         (initialize ex_artifact initialState))))
  = fst (cvTermInfo ex_artifact 1 (initialize ex_artifact initialState)).
Proof.
  assert (Hi : initialized_ (initialize ex_artifact initialState) = true) by reflexivity.
  pose proof (cvTermInfo_odi ex_artifact 7 _ Hi) as HO.
  split; [exact Hi|]. split; [exact HO|].
  exact (proj1 (lookups_history_independent ex_artifact _ _ Hi HO) 1).
Defined.

(** cvIsA(child, parent) with child <> parent and a child that has no
    is-a parent (a code with no row, CVID_Unknown, a root term) returns
    false after one lookup of the child, and never returns true. *)
Theorem cvIsA_no_parents_false (A : Artifact) (st : State) (c p : Z) :
  initialized_ st = true -> parentsOf st c = [] -> c <> p ->
  cvIsA A 1 c p st = Some (false, snd (cvTermInfo A c st)) /\
  ~ isA_returns A st c p true.
Proof.
  intros Hi Hpar Hne. split.
  - simpl. replace (c =? p) with false by (symmetry; apply Z.eqb_neq; exact Hne).
    pose proof (cvTermInfo_parents A c st Hi) as HP. rewrite Hpar in HP.
    destruct (cvTermInfo A c st) as [info s1]. simpl in HP |- *. rewrite HP. reflexivity.
  - intros Hr. apply (isA_returns_pure A st c p true Hi) in Hr.
    pose proof (isA_pure_equation _ c p true Hne Hr) as Heq.
    destruct (proj1 Heq eq_refl) as (q & Hq & _). rewrite Hpar in Hq. destruct Hq.
Qed.

Lemma cvIsA_no_parents_false_witness :
  initialized_ (initialize ex_artifact initialState) = true /\
  parentsOf (initialize ex_artifact initialState) CVID_Unknown = [] /\
  CVID_Unknown <> 1 /\
  ~ isA_returns ex_artifact (initialize ex_artifact initialState) CVID_Unknown 1 true.
Proof.
  assert (Hi : initialized_ (initialize ex_artifact initialState) = true) by reflexivity.
  assert (Hp : parentsOf (initialize ex_artifact initialState) CVID_Unknown = [])
    by (vm_compute; reflexivity).
  assert (Hne : CVID_Unknown <> 1) by (unfold CVID_Unknown; lia).
  split; [exact Hi|]. split; [exact Hp|]. split; [exact Hne|].
  exact (proj2 (cvIsA_no_parents_false ex_artifact _ CVID_Unknown 1 Hi Hp Hne)).
Defined.

(* --------------------------------------------------------------------- *)
(* termMaps and the relation tables of writeCpp                          *)
(* --------------------------------------------------------------------- *)

Lemma foldl_insert_lookup (ts : list Term.t) (m : gmap N Term.t) j :
  foldl (fun m t => <[Term.id t := t]> m) m ts !! j =
  match last_term_with_id j ts with Some q => Some q | None => m !! j end.
Proof.
  revert m. induction ts as [|t ts IH]; intros m; simpl; [reflexivity|].
  rewrite IH. destruct (last_term_with_id j ts); [reflexivity|].
  destruct (N.eqb_spec (Term.id t) j) as [<-|Hne].
  - apply lookup_insert_eq.
  - apply lookup_insert_ne. exact Hne.
Qed.

Lemma last_term_with_id_None j ts :
  last_term_with_id j ts = None <-> forall t, In t ts -> Term.id t <> j.
Proof.
  induction ts as [|t ts IH]; simpl; [split; [intros _ _ []|reflexivity]|].
  destruct (last_term_with_id j ts) as [q|] eqn:E.
  - split; [discriminate|]. intros H. exfalso.
    assert (Hs : Some q <> None) by discriminate. apply Hs. apply IH.
    intros t' Ht'. apply H. right. exact Ht'.
  - destruct (N.eqb_spec (Term.id t) j) as [Heq|Hne].
    + split; [discriminate|]. intros H. exfalso. exact (H t (or_introl eq_refl) Heq).
    + split; [|reflexivity]. intros _ t' [<-|Ht']; [exact Hne|].
      apply (proj1 IH eq_refl). exact Ht'.
Qed.

Lemma last_term_with_id_Some j ts q :
  last_term_with_id j ts = Some q -> In q ts /\ Term.id q = j.
Proof.
  induction ts as [|t ts IH]; simpl; [discriminate|].
  destruct (last_term_with_id j ts) as [q'|].
  - intros [= <-]. destruct (IH eq_refl). split; [right|]; assumption.
  - destruct (N.eqb_spec (Term.id t) j); [|discriminate]. intros [= <-]. auto.
Qed.

Lemma Forall2_Some_In {X Y} (f : X -> option Y) l k :
  Forall2 (fun x y => f x = Some y) l k ->
  forall y, In y k <-> exists x, In x l /\ f x = Some y.
Proof.
  induction 1 as [|x y0 l k Hxy _ IH]; intros y; simpl.
  - split; [intros []|intros (x & [] & _)].
  - rewrite IH. split.
    + intros [<-|(x' & Hx' & Hf)]; [exists x; auto | exists x'; auto].
    + intros (x' & [<-|Hx'] & Hf); [left; congruence | right; exists x'; auto].
Qed.

Lemma Forall2_In_left {X Y} (R : X -> Y -> Prop) l k x :
  Forall2 R l k -> In x l -> exists y, In y k /\ R x y.
Proof.
  induction 1 as [|x0 y0 l k Hxy _ IH]; simpl; [intros []|].
  intros [<-|Hx]; [exists y0; auto|]. destruct (IH Hx) as (y & Hy & HR). exists y. auto.
Qed.

(** The rows emitted for one relation: for every file [i], every term [t]
    of it and every parent id [j] of [t], the pair (enumValue t,
    enumValue of the term of id [j] that termMaps[i] holds). *)
Lemma relationRowsFrom_In sel index obos rows :
  relationRowsFrom sel index obos = Some rows ->
  forall c p, In (c, p) rows <->
  exists i obo, nth_error obos i = Some obo /\
    exists t j q, In t (OBO.terms obo) /\ In j (sel t) /\
      last_term_with_id j (OBO.terms obo) = Some q /\
      c = enumValue t (index + i) /\ p = enumValue q (index + i).
Proof.
  revert index rows. induction obos as [|obo obos IH]; intros index rows H c p; simpl in H.
  - injection H as <-. split; [intros []|]. intros (i & obo & Hi & _). destruct i; discriminate.
  - destruct (mapM _ (OBO.terms obo)) as [rs|] eqn:E1; [|discriminate]. simpl in H.
    destruct (relationRowsFrom sel (S index) obos) as [rest|] eqn:E2; [|discriminate].
    simpl in H. injection H as <-.
    pose proof (mapM_Some_1 _ _ _ E1) as F.
    split.
    + intros Hin. apply in_app_or in Hin. destruct Hin as [Hin|Hin].
      * apply in_concat in Hin. destruct Hin as (l & Hl & Hcp).
        destruct (proj1 (Forall2_Some_In _ _ _ F l) Hl) as (t & Ht & Hm).
        pose proof (mapM_Some_1 _ _ _ Hm) as F2.
        destruct (proj1 (Forall2_Some_In _ _ _ F2 (c, p)) Hcp) as (j & Hj & Hq).
        destruct (termMap obo !! j) as [q|] eqn:Eq; simpl in Hq; [|discriminate].
        injection Hq as <- <-. unfold termMap in Eq. rewrite foldl_insert_lookup in Eq.
        rewrite lookup_empty in Eq.
        exists O, obo. split; [reflexivity|]. exists t, j, q. rewrite Nat.add_0_r.
        destruct (last_term_with_id j (OBO.terms obo)); [|discriminate].
        injection Eq as ->. auto.
      * apply (IH (S index) rest E2 c p) in Hin.
        destruct Hin as (i & o & Hi & t & j & q & Ht & Hj & Hq & -> & ->).
        exists (S i), o. split; [exact Hi|]. exists t, j, q.
        replace (index + S i)%nat with (S index + i)%nat by lia. auto.
    + intros ([|i] & o & Hi & t & j & q & Ht & Hj & Hq & -> & ->); simpl in Hi.
      * injection Hi as <-. apply in_or_app. left. rewrite Nat.add_0_r.
        destruct (Forall2_In_left _ _ _ _ F Ht) as (l & Hl & Hm).
        apply in_concat. exists l. split; [exact Hl|].
        apply (proj2 (Forall2_Some_In _ _ _ (mapM_Some_1 _ _ _ Hm) _)).
        exists j. split; [exact Hj|].
        unfold termMap. rewrite foldl_insert_lookup, Hq. reflexivity.
      * apply in_or_app. right. apply (IH (S index) rest E2).
        exists i, o. split; [exact Hi|]. exists t, j, q.
        replace (S index + i)%nat with (index + S i)%nat by lia. auto.
Qed.

(** A relation table cannot be built exactly when some parent id of some
    term matches no term of its own file. *)
Lemma relationRowsFrom_None sel index obos :
  relationRowsFrom sel index obos = None <->
  exists obo, In obo obos /\ exists t j, In t (OBO.terms obo) /\ In j (sel t) /\
    forall q, In q (OBO.terms obo) -> Term.id q <> j.
Proof.
  revert index. induction obos as [|obo obos IH]; intros index; simpl.
  - split; [discriminate|]. intros (o & [] & _).
  - destruct (mapM _ (OBO.terms obo)) as [rs|] eqn:E1; simpl.
    + pose proof (mapM_Some_1 _ _ _ E1) as F.
      assert (Hnone : ~ exists t j, In t (OBO.terms obo) /\ In j (sel t) /\
                        forall q, In q (OBO.terms obo) -> Term.id q <> j).
      { intros (t & j & Ht & Hj & Hq).
        destruct (Forall2_In_left _ _ _ _ F Ht) as (l & _ & Hm).
        pose proof (mapM_Some_1 _ _ _ Hm) as F2.
        destruct (Forall2_In_left _ _ _ _ F2 Hj) as (y & _ & Hy).
        unfold termMap in Hy. rewrite foldl_insert_lookup, lookup_empty in Hy.
        rewrite (proj2 (last_term_with_id_None j _) Hq) in Hy. discriminate. }
      destruct (relationRowsFrom sel (S index) obos) as [rest|] eqn:E2; simpl.
      * split; [discriminate|]. intros (o & [<-|Ho] & Hx); [destruct (Hnone Hx)|].
        assert (Hc : Some rest = None) by (rewrite <- E2; apply IH; exists o; auto).
        discriminate.
      * split; [|reflexivity]. intros _. destruct (proj1 (IH (S index)) E2) as (o & Ho & Hx).
        exists o. auto.
    + split; [|reflexivity]. intros _. exists obo. split; [left; reflexivity|].
      apply mapM_None_1, List.Exists_exists in E1. destruct E1 as (t & Ht & Hm).
      apply mapM_None_1, List.Exists_exists in Hm. destruct Hm as (j & Hj & Hq).
      exists t, j. split; [exact Ht|]. split; [exact Hj|].
      apply last_term_with_id_None.
      unfold termMap in Hq. rewrite foldl_insert_lookup, lookup_empty in Hq.
      destruct (last_term_with_id j (OBO.terms obo)); [discriminate | reflexivity].
Qed.

Lemma termMap_lookup obo j :
  termMap obo !! j = last_term_with_id j (OBO.terms obo).
Proof.
  unfold termMap. rewrite foldl_insert_lookup, lookup_empty.
  destruct (last_term_with_id j (OBO.terms obo)); reflexivity.
Qed.

(** writeCpp fails (in C++, a null Term pointer from termMaps is
    dereferenced) exactly when some is_a or part_of id of some term
    names no term of the same file. *)
Theorem writeCpp_None_iff obos :
  writeCpp obos = None <->
  exists obo, In obo obos /\ exists t j, In t (OBO.terms obo) /\
    (In j (Term.parentsIsA t) \/ In j (Term.parentsPartOf t)) /\
    forall q, In q (OBO.terms obo) -> Term.id q <> j.
Proof.
  unfold writeCpp.
  destruct (relationRowsFrom Term.parentsIsA 0 obos) as [isA|] eqn:E1; simpl.
  - destruct (relationRowsFrom Term.parentsPartOf 0 obos) as [po|] eqn:E2; simpl.
    + split; [discriminate|]. intros (o & Ho & t & j & Ht & [Hj|Hj] & Hq).
      * assert (Hc : Some isA = None)
          by (rewrite <- E1; apply relationRowsFrom_None; exists o; split; [exact Ho|];
              exists t, j; auto).
        discriminate.
      * assert (Hc : Some po = None)
          by (rewrite <- E2; apply relationRowsFrom_None; exists o; split; [exact Ho|];
              exists t, j; auto).
        discriminate.
    + split; [|reflexivity]. intros _.
      destruct (proj1 (relationRowsFrom_None _ _ _) E2) as (o & Ho & t & j & Ht & Hj & Hq).
      exists o. split; [exact Ho|]. exists t, j. auto.
  - split; [|reflexivity]. intros _.
    destruct (proj1 (relationRowsFrom_None _ _ _) E1) as (o & Ho & t & j & Ht & Hj & Hq).
    exists o. split; [exact Ho|]. exists t, j. auto.
Qed.

(** When writeCpp succeeds, relationsIsA_ (relationsPartOf_) holds the
    pair (child, parent) exactly when some file [i] has a term [t] with
    an is_a (part_of) id [j], child = enumValue(t, i) and parent =
    enumValue(q, i) for the term [q] that termMaps[i] holds for [j]: the
    last term of that file with id [j]. *)
Theorem writeCpp_relation_rows obos A :
  writeCpp obos = Some A ->
  (forall obo j, termMap obo !! j = last_term_with_id j (OBO.terms obo)) /\
  (forall c p, In (c, p) (relationsIsA A) <->
     exists i obo, nth_error obos i = Some obo /\
       exists t j q, In t (OBO.terms obo) /\ In j (Term.parentsIsA t) /\
         termMap obo !! j = Some q /\ c = enumValue t i /\ p = enumValue q i) /\
  (forall c p, In (c, p) (relationsPartOf A) <->
     exists i obo, nth_error obos i = Some obo /\
       exists t j q, In t (OBO.terms obo) /\ In j (Term.parentsPartOf t) /\
         termMap obo !! j = Some q /\ c = enumValue t i /\ p = enumValue q i).
Proof.
  unfold writeCpp.
  destruct (relationRowsFrom Term.parentsIsA 0 obos) as [isA|] eqn:E1; [|discriminate].
  destruct (relationRowsFrom Term.parentsPartOf 0 obos) as [po|] eqn:E2; [|discriminate].
  simpl. intros [= <-]. cbn [relationsIsA relationsPartOf].
  split; [exact termMap_lookup|].
  split; intros c p; [rewrite (relationRowsFrom_In _ _ _ _ E1) | rewrite (relationRowsFrom_In _ _ _ _ E2)];
    setoid_rewrite termMap_lookup; reflexivity.
Qed.

Lemma writeCpp_relation_rows_witness :
  writeCpp ex_obos = Some ex_artifact /\
  (In (enumValue ex_ms_child 0, enumValue ex_ms_spectrum 0) (relationsIsA ex_artifact) <->
   exists i obo, nth_error ex_obos i = Some obo /\
     exists t j q, In t (OBO.terms obo) /\ In j (Term.parentsIsA t) /\
       termMap obo !! j = Some q /\ enumValue ex_ms_child 0 = enumValue t i /\
       enumValue ex_ms_spectrum 0 = enumValue q i).
Proof.
  assert (HA : writeCpp ex_obos = Some ex_artifact) by (vm_compute; reflexivity).
  split; [exact HA|].
  exact (proj1 (proj2 (writeCpp_relation_rows ex_obos ex_artifact HA)) _ _).
Defined.

(* --------------------------------------------------------------------- *)
(* The id column read back by cvTermInfo(const string&)                  *)
(* --------------------------------------------------------------------- *)

Lemma to_CVID_small x : 0 <= x < 2 ^ 31 -> to_CVID x = x.
Proof.
  intros H. unfold to_CVID. rewrite Z.mod_small by lia.
  destruct (Z.ltb_spec x (2 ^ 31)); lia.
Qed.

Lemma string_append_nil s : String.append s "" = s.
Proof. induction s as [|c s IH]; [reflexivity|]. change (String c (String.append s "") = String c s). rewrite IH. reflexivity. Qed.

Lemma string_append_cons c a b :
  String.append (String c a) b = String c (String.append a b).
Proof. reflexivity. Qed.

Lemma string_append_empty b : String.append EmptyString b = b.
Proof. reflexivity. Qed.

Lemma digits_fold_app l1 l2 a :
  fold_left (fun acc d => acc * 10 + d) (l1 ++ l2) a =
  fold_left (fun acc d => acc * 10 + d) l2 (fold_left (fun acc d => acc * 10 + d) l1 a).
Proof. apply fold_left_app. Qed.

Lemma digit_char_take k s :
  (k < 10)%N ->
  take_digits (String (Ascii.ascii_of_N (48 + k)) s) = Z.of_N k :: take_digits s.
Proof.
  intros Hk. assert (k = 0 \/ k = 1 \/ k = 2 \/ k = 3 \/ k = 4 \/ k = 5 \/ k = 6 \/
                     k = 7 \/ k = 8 \/ k = 9)%N as Hc by lia.
  repeat destruct Hc as [->|Hc]; try reflexivity; subst k; reflexivity.
Qed.

Lemma digit_char_not_colon k :
  (k < 10)%N -> Ascii.ascii_of_N (48 + k) <> ":"%char.
Proof.
  intros Hk. assert (k = 0 \/ k = 1 \/ k = 2 \/ k = 3 \/ k = 4 \/ k = 5 \/ k = 6 \/
                     k = 7 \/ k = 8 \/ k = 9)%N as Hc by lia.
  repeat destruct Hc as [->|Hc]; try discriminate; subst k; discriminate.
Qed.

Lemma no_colon_cons c s : c <> ":"%char -> no_colon s -> no_colon (String c s).
Proof. unfold no_colon. simpl. intros Hc Hs [H|H]; [exact (Hc H) | exact (Hs H)]. Qed.

(** The digits operator<< writes: read back by take_digits, with their
    value, and no colon among them. *)
Lemma decimal_digits_spec fuel (n : N) acc La :
  (0 < fuel)%nat -> (Z.of_N n < 10 ^ Z.of_nat fuel) ->
  (forall s, take_digits (String.append acc s) = La ++ take_digits s) -> no_colon acc ->
  exists L, L <> [] /\
    (forall s, take_digits (String.append (decimal_digits fuel n acc) s) = L ++ La ++ take_digits s) /\
    digits_value L = Z.of_N n /\ no_colon (decimal_digits fuel n acc).
Proof.
  revert n acc La. induction fuel as [|f IH]; intros n acc La Hpos Hn Hacc Hnc.
  - lia.
  - cbn [decimal_digits].
    assert (Hk : (n mod 10 < 10)%N) by (apply N.mod_lt; lia).
    set (acc' := String.append (String (Ascii.ascii_of_N (48 + n mod 10)) EmptyString) acc).
    assert (Hacc' : forall s, take_digits (String.append acc' s) =
                              (Z.of_N (n mod 10) :: La) ++ take_digits s).
    { intros s. unfold acc'. rewrite string_append_cons, string_append_empty, string_append_cons.
      rewrite digit_char_take by exact Hk.
      rewrite Hacc. reflexivity. }
    assert (Hnc' : no_colon acc').
    { unfold acc'. rewrite string_append_cons, string_append_empty. apply no_colon_cons; [apply digit_char_not_colon; exact Hk | exact Hnc]. }
    destruct (N.ltb_spec n 10) as [Hlt|Hge].
    + exists [Z.of_N (n mod 10)]. split; [discriminate|]. split; [exact Hacc'|].
      split; [|exact Hnc']. unfold digits_value. simpl. rewrite N.mod_small by exact Hlt. lia.
    + assert (Hf : Z.of_N (n / 10) < 10 ^ Z.of_nat f).
      { rewrite Nat2Z.inj_succ, Z.pow_succ_r in Hn by lia.
        rewrite N2Z.inj_div. apply Z.div_lt_upper_bound; lia. }
      assert (Hf0 : (0 < f)%nat).
      { destruct f; [|lia]. simpl in Hn. lia. }
      destruct (IH (n / 10)%N acc' _ Hf0 Hf Hacc' Hnc') as (L & HL & Ht & Hv & Hc).
      exists (L ++ [Z.of_N (n mod 10)]). split; [destruct L; discriminate|].
      split; [|split; [|exact Hc]].
      * intros s. rewrite Ht, <- !app_assoc. reflexivity.
      * unfold digits_value in *. rewrite digits_fold_app, Hv. simpl.
        pose proof (N.div_mod n 10 ltac:(lia)) as E. lia.
Qed.

Lemma decimal_spec (n : N) :
  exists L, L <> [] /\
    (forall s, take_digits (String.append (decimal n) s) = L ++ take_digits s) /\
    digits_value L = Z.of_N n /\ no_colon (decimal n).
Proof.
  unfold decimal.
  destruct (decimal_digits_spec (N.to_nat (N.log2 n) + 1) n "" [])
    as (L & HL & Ht & Hv & Hc).
  - lia.
  - destruct (N.eq_dec n 0%N) as [->|Hn]; [simpl; lia|].
    destruct (N.log2_spec n ltac:(lia)) as [_ Hlt].
    apply N2Z.inj_lt in Hlt. rewrite N2Z.inj_pow, N2Z.inj_succ in Hlt.
    rewrite Nat2Z.inj_add, N_nat_Z. simpl (Z.of_nat 1).
    apply Z.lt_le_trans with (2 ^ (Z.of_N (N.log2 n) + 1)); [lia|].
    apply Z.pow_le_mono_l. lia.
  - reflexivity.
  - intros [].
  - exists L. split; [exact HL|]. split; [intros s; rewrite Ht; reflexivity|]. auto.
Qed.

Lemma concat_zeros_succ k :
  String.concat "" (repeat "0" (S k)) = String "0" (String.concat "" (repeat "0" k)).
Proof. destruct k; reflexivity. Qed.

Lemma pad7_spec s L :
  (forall s', take_digits (String.append s s') = L ++ take_digits s') -> no_colon s ->
  (forall s', take_digits (String.append (pad7 s) s') =
              repeat 0 (7 - String.length s) ++ L ++ take_digits s') /\ no_colon (pad7 s).
Proof.
  unfold pad7. generalize (7 - String.length s)%nat as k. intros k Ht Hc.
  induction k as [|k [IH1 IH2]]; [simpl; auto|].
  rewrite concat_zeros_succ. split.
  - intros s'. simpl. rewrite IH1. reflexivity.
  - simpl. apply no_colon_cons; [discriminate | exact IH2].
Qed.

Lemma strtoul_scan_digits s :
  take_digits s <> [] -> strtoul_scan s = (false, take_digits s).
Proof.
  destruct s as [|c rest]; [simpl; congruence|].
  destruct c as [[] [] [] [] [] [] [] []]; simpl; try congruence; reflexivity.
Qed.

Lemma digits_value_zeros k L : digits_value (repeat 0 k ++ L) = digits_value L.
Proof.
  unfold digits_value. rewrite digits_fold_app.
  replace (fold_left (fun acc d => acc * 10 + d) (repeat 0 k) 0) with 0; [reflexivity|].
  induction k as [|k IH]; simpl; [reflexivity | exact IH].
Qed.

(** stringToCVID on the number column of an id: the term id itself when
    it fits an unsigned int. *)
Lemma stringToCVID_pad7_decimal (n : N) :
  Z.of_N n < uint_modulus ->
  stringToCVID (pad7 (decimal n)) = Some (Z.of_N n) /\ no_colon (pad7 (decimal n)).
Proof.
  intros Hn. destruct (decimal_spec n) as (L & HL & Ht & Hv & Hc).
  destruct (pad7_spec _ _ Ht Hc) as [Hp Hpc]. split; [|exact Hpc].
  pose proof (Hp "") as H0. rewrite string_append_nil, app_nil_r in H0. simpl in H0.

  unfold stringToCVID, strtoul.
  destruct (take_digits (pad7 (decimal n))) as [|d ds] eqn:E.
  - symmetry in H0. apply app_eq_nil in H0. tauto.
  - rewrite strtoul_scan_digits by congruence. rewrite E. cbv zeta.
    assert (Hd : digits_value (d :: ds) = Z.of_N n).
    { rewrite H0, digits_value_zeros. exact Hv. }
    rewrite Hd. unfold ULONG_MAX, uint_modulus in *.
    destruct (Z.ltb_spec (2 ^ 64 - 1) (Z.of_N n)) as [Hb|_]; [lia|].
    cbn [strtoul_value strtoul_converted strtoul_erange].
    rewrite Z.mod_small by lia. rewrite andb_false_r, orb_false_r. reflexivity.
Qed.

Lemma split_colon_no_colon s : no_colon s -> split_colon s = [s].
Proof.
  unfold no_colon. induction s as [|c s IH]; simpl; intros H; [reflexivity|].
  destruct (Ascii.eqb_spec c ":") as [->|Hne]; [exfalso; apply H; left; reflexivity|].
  rewrite IH by (intros H'; apply H; right; exact H'). reflexivity.
Qed.

Lemma split_colon_pair a b :
  no_colon a -> no_colon b -> split_colon (String.append a (String ":" b)) = [a; b].
Proof.
  unfold no_colon. induction a as [|c a IH]; simpl; intros Ha Hb.
  - rewrite split_colon_no_colon by exact Hb. reflexivity.
  - destruct (Ascii.eqb_spec c ":") as [->|Hne]; [exfalso; apply Ha; left; reflexivity|].
    rewrite IH by (try (intros H'; apply Ha; right; exact H'); exact Hb). reflexivity.
Qed.

(** Looking a term up by the id string of its termInfos_ row (prefix,
    colon, id padded to seven digits) is the same call, with the same
    result and the same effect on the maps, as looking it up by its code
    converted to CVID (which leaves a code below 2^31 unchanged), when
    the prefix has no colon, its first position in oboPrefixes_ is the
    namespace index the code was allocated with, and the term id fits the
    unsigned int that stringToCVID returns. *)
Theorem cvTermInfoStr_idString (A : Artifact) (st : State) (t : Term.t) (i : nat) :
  find_prefix (Term.prefix t) (oboPrefixes A) = Some i ->
  no_colon (Term.prefix t) -> Z.of_N (Term.id t) < uint_modulus ->
  cvTermInfoStr A (idString t) st =
    (inr (fst (cvTermInfo A (to_CVID (enumValue t i)) st)),
     snd (cvTermInfo A (to_CVID (enumValue t i)) st)) /\
  (enumValue t i < 2 ^ 31 -> to_CVID (enumValue t i) = enumValue t i).
Proof.
  intros Hf Hp Hid. split.
  - destruct (stringToCVID_pad7_decimal _ Hid) as [Hs Hc].
    unfold cvTermInfoStr, idString.
    rewrite string_append_cons, string_append_empty, split_colon_pair by assumption.
    rewrite Hf, Hs. unfold cvTermInfo.
    replace (((Z.of_nat i * enumBlockSize_) mod size_t_modulus + Z.of_N (Term.id t))
               mod size_t_modulus) with (enumValue t i)
      by (unfold enumValue, enumValue_id; rewrite Z.mul_comm, Z.add_comm; reflexivity).
    destruct (info_index (to_CVID (enumValue t i)) (ensure_init A st)); reflexivity.
  - intros Hlt. apply to_CVID_small. pose proof (enumValue_nonneg t i). lia.
Qed.

Lemma cvTermInfoStr_idString_witness :
  find_prefix (Term.prefix ex_ms_child) (oboPrefixes ex_artifact) = Some O /\
  no_colon (Term.prefix ex_ms_child) /\ Z.of_N (Term.id ex_ms_child) < uint_modulus /\
  cvTermInfoStr ex_artifact (idString ex_ms_child) initialState =
    (inr (fst (cvTermInfo ex_artifact (to_CVID (enumValue ex_ms_child 0)) initialState)),
     snd (cvTermInfo ex_artifact (to_CVID (enumValue ex_ms_child 0)) initialState)).
Proof.
  assert (Hf : find_prefix (Term.prefix ex_ms_child) (oboPrefixes ex_artifact) = Some O)
    by (vm_compute; reflexivity).
  assert (Hp : no_colon (Term.prefix ex_ms_child))
    by (unfold no_colon; simpl; intros [H|[H|[]]]; discriminate).
  assert (Hid : Z.of_N (Term.id ex_ms_child) < uint_modulus)
    by (unfold uint_modulus; simpl; lia).
  split; [exact Hf|]. split; [exact Hp|]. split; [exact Hid|].
  exact (proj1 (cvTermInfoStr_idString ex_artifact initialState ex_ms_child O Hf Hp Hid)).
Defined.

(* --------------------------------------------------------------------- *)
(* The enumerators of enum CVID (writeHpp)                               *)
(* --------------------------------------------------------------------- *)

Lemma enumEntriesFrom_iff index (obos : list OBO.t) n v :
  In (n, v) (enumEntriesFrom index obos) <->
  exists i obo t, obos !! i = Some obo /\ In t (OBO.terms obo) /\
    v = enumValue t (index + i) /\
    (n = enumName (Term.prefix t) (Term.name t) \/
     (OBO.prefix obo = "MS" /\
      exists syn, In syn (Term.exactSynonyms t) /\ n = enumName (Term.prefix t) syn)).
Proof.
  revert index. induction obos as [|o rest IH]; intros index; simpl.
  - split; [intros []|]. intros (i & obo & t & Hi & _). rewrite lookup_nil in Hi. discriminate.
  - rewrite in_app_iff, IH. split.
    + intros [H | (i & obo & t & Hi & Ht & Hv & Hn)].
      * apply in_concat in H as (l & Hl & Hnv). apply in_map_iff in Hl as (t & <- & Ht).
        exists 0%nat, o, t. split; [reflexivity|]. split; [exact Ht|].
        rewrite Nat.add_0_r. destruct Hnv as [Hnv | Hnv].
        -- injection Hnv as Hn Hv. subst n v. split; [reflexivity|]. left. reflexivity.
        -- destruct (String.eqb_spec (OBO.prefix o) "MS") as [Hms|]; [|destruct Hnv].
           apply in_map_iff in Hnv as (syn & Hs & Hsyn). injection Hs as Hn Hv. subst n v.
           split; [reflexivity|]. right. split; [exact Hms|]. exists syn. auto.
      * exists (S i), obo, t. split; [exact Hi|]. split; [exact Ht|].
        split; [rewrite Hv; f_equal; lia | exact Hn].
    + intros (i & obo & t & Hi & Ht & Hv & Hn). destruct i as [|i].
      * left. simpl in Hi. injection Hi as <-. rewrite Nat.add_0_r in Hv. subst v.
        apply in_concat. eexists. split; [apply in_map_iff; exists t; split; [reflexivity | exact Ht]|].
        destruct Hn as [-> | (Hms & syn & Hsyn & ->)]; [left; reflexivity|].
        right. rewrite Hms. simpl. apply in_map_iff. exists syn. auto.
      * right. exists i, obo, t. split; [exact Hi|]. split; [exact Ht|].
        split; [rewrite Hv; f_equal; lia | exact Hn].
Qed.

(** enum CVID: the first enumerator is CVID_Unknown = -1; every other one
    belongs to a term t of the i-th file and has the value
    enumValue(t, i): it is enumName(t) or, in the MS file only, the
    enumName of one of t's exact synonyms; each term has its enumerator
    and each exact synonym of an MS term one.  No enumerator other than
    CVID_Unknown has the value -1. *)
Theorem enumEntries_codes (obos : list OBO.t) :
  hd_error (enumEntries obos) = Some ("CVID_Unknown", CVID_Unknown) /\
  (forall n v, In (n, v) (enumEntries obos) <->
     (n = "CVID_Unknown" /\ v = CVID_Unknown) \/
     exists i obo t, obos !! i = Some obo /\ In t (OBO.terms obo) /\ v = enumValue t i /\
       (n = enumName (Term.prefix t) (Term.name t) \/
        (OBO.prefix obo = "MS" /\
         exists syn, In syn (Term.exactSynonyms t) /\ n = enumName (Term.prefix t) syn))) /\
  (forall n v, In (n, v) (enumEntries obos) -> v = CVID_Unknown -> n = "CVID_Unknown").
Proof.
  split; [reflexivity|]. split.
  - intros n v. unfold enumEntries. cbn [In]. rewrite (enumEntriesFrom_iff 0 obos n v).
    split.
    + intros [H | H]; [left; injection H as Hn Hv; subst n v; split; reflexivity | right; exact H].
    + intros [[-> ->] | H]; [left; reflexivity | right; exact H].
  - intros n v [H | H] Hv; [injection H as Hn _; exact (eq_sym Hn)|].
    apply enumEntriesFrom_iff in H as (i & obo & t & _ & _ & -> & _).
    pose proof (enumValue_nonneg t (0 + i)). unfold CVID_Unknown in Hv. lia.
Qed.


(* --------------------------------------------------------------------- *)
(* Every state of a process                                              *)
(* --------------------------------------------------------------------- *)

Lemma ensure_init_idem A st : ensure_init A (ensure_init A st) = ensure_init A st.
Proof. apply ensure_init_id, ensure_init_initialized. Qed.

Lemma ensure_init_initial A : ensure_init A initialState = initialize A initialState.
Proof. reflexivity. Qed.

Lemma cv_ensure A p st : cv A p st = cv A p (ensure_init A st).
Proof. unfold cv. rewrite ensure_init_idem. reflexivity. Qed.

Lemma cvTermInfo_ensure A c st : cvTermInfo A c st = cvTermInfo A c (ensure_init A st).
Proof. unfold cvTermInfo. rewrite ensure_init_idem. reflexivity. Qed.

Lemma cvTermInfoStr_ensure A s st : cvTermInfoStr A s st = cvTermInfoStr A s (ensure_init A st).
Proof. unfold cvTermInfoStr. rewrite ensure_init_idem. reflexivity. Qed.

Lemma cvIsA_refl A f x st : cvIsA A (S f) x x st = Some (true, st).
Proof. cbn [cvIsA]. rewrite Z.eqb_refl. reflexivity. Qed.

(** With child <> parent, cvIsA first calls cvTermInfo(child), which
    initializes; the state it starts from only matters through that. *)
Lemma cvIsA_ensure A f c p st :
  c <> p -> cvIsA A f c p st = cvIsA A f c p (ensure_init A st).
Proof.
  intros Hne. destruct f as [|f]; [reflexivity|]. cbn [cvIsA].
  replace (c =? p) with false by (symmetry; apply Z.eqb_neq; exact Hne).
  rewrite (cvTermInfo_ensure A c st). reflexivity.
Qed.

Lemma cvIsA_state A f c p st b st' :
  cvIsA A f c p st = Some (b, st') ->
  (c = p /\ st' = st) \/ (c <> p /\ only_default_insertions (ensure_init A st) st').
Proof.
  intros H. destruct (Z.eq_dec c p) as [<- | Hne].
  - left. split; [reflexivity|]. destruct f as [|f]; [simpl in H; discriminate|].
    rewrite cvIsA_refl in H. congruence.
  - right. split; [exact Hne|]. rewrite (cvIsA_ensure A f c p st Hne) in H.
    exact (cvIsA_odi A f c p _ b st' (ensure_init_initialized A st) H).
Qed.

Lemma isA_returns_refl_value A st c r : isA_returns A st c c r -> r = true.
Proof.
  intros (f & st' & H). destruct f as [|f]; [simpl in H; discriminate|].
  rewrite cvIsA_refl in H. congruence.
Qed.

Lemma isA_returns_ensure A st c p b :
  c <> p -> (isA_returns A st c p b <-> isA_returns A (ensure_init A st) c p b).
Proof.
  intros Hne. unfold isA_returns. split; intros (f & st' & H); exists f, st'.
  - rewrite <- (cvIsA_ensure A f c p st Hne). exact H.
  - rewrite (cvIsA_ensure A f c p st Hne). exact H.
Qed.

Lemma cv_step_odi A p st : only_default_insertions (ensure_init A st) (snd (cv A p st)).
Proof. rewrite cv_ensure. apply cv_odi, ensure_init_initialized. Qed.

Lemma cvTermInfo_step_odi A c st :
  only_default_insertions (ensure_init A st) (snd (cvTermInfo A c st)).
Proof. rewrite cvTermInfo_ensure. apply cvTermInfo_odi, ensure_init_initialized. Qed.

Lemma cvTermInfoStr_step_odi A s st :
  only_default_insertions (ensure_init A st) (snd (cvTermInfoStr A s st)).
Proof. rewrite cvTermInfoStr_ensure. apply cvTermInfoStr_odi, ensure_init_initialized. Qed.

Lemma reach_step A st st' :
  (st = initialState \/
   (initialized_ st = true /\ only_default_insertions (initialize A initialState) st)) ->
  only_default_insertions (ensure_init A st) st' ->
  initialized_ st' = true /\ only_default_insertions (initialize A initialState) st'.
Proof.
  intros [-> | [Hi HO]] H.
  - rewrite ensure_init_initial in H. split; [|exact H].
    destruct H as [H _]. rewrite H. reflexivity.
  - rewrite (ensure_init_id A st Hi) in H. split; [|exact (odi_trans _ _ _ HO H)].
    destruct H as [H _]. congruence.
Qed.

Lemma reachable_cases A st :
  reachable A st ->
  st = initialState \/
  (initialized_ st = true /\ only_default_insertions (initialize A initialState) st).
Proof.
  induction 1 as [| p st _ IH | c st _ IH | s st _ IH | f c p st b st' _ IH H | st _ IH].
  - left. reflexivity.
  - right. apply (reach_step A st _ IH). apply cv_step_odi.
  - right. apply (reach_step A st _ IH). apply cvTermInfo_step_odi.
  - right. apply (reach_step A st _ IH). apply cvTermInfoStr_step_odi.
  - destruct (cvIsA_state A f c p st b st' H) as [[_ ->] | [_ HO]]; [exact IH|].
    right. exact (reach_step A st st' IH HO).
  - right. apply (reach_step A st _ IH). apply odi_refl.
Qed.

Lemma cvTermInfo_fst_odi A c st st' :
  initialized_ st = true -> only_default_insertions st st' ->
  fst (cvTermInfo A c st') = fst (cvTermInfo A c st).
Proof.
  intros Hi HO. assert (Hi' : initialized_ st' = true) by (destruct HO as [H _]; congruence).
  unfold cvTermInfo. rewrite (ensure_init_id A st Hi), (ensure_init_id A st' Hi').
  apply info_index_fst_odi. exact HO.
Qed.

Lemma cv_fst_odi A p st st' :
  initialized_ st = true -> only_default_insertions st st' ->
  fst (cv A p st') = fst (cv A p st).
Proof.
  intros Hi HO. assert (Hi' : initialized_ st' = true) by (destruct HO as [H _]; congruence).
  unfold cv. rewrite (ensure_init_id A st Hi), (ensure_init_id A st' Hi').
  destruct HO as (_ & _ & _ & HC). pose proof (default_grown_view _ _ _ p HC) as E.
  destruct (cvMap_ st !! p) eqn:E1; destruct (cvMap_ st' !! p) eqn:E2;
    simpl in E |- *; congruence.
Qed.

Lemma cvTermInfoStr_fst_odi A s st st' :
  initialized_ st = true -> only_default_insertions st st' ->
  fst (cvTermInfoStr A s st') = fst (cvTermInfoStr A s st).
Proof.
  intros Hi HO. assert (Hi' : initialized_ st' = true) by (destruct HO as [H _]; congruence).
  unfold cvTermInfoStr. rewrite (ensure_init_id A st Hi), (ensure_init_id A st' Hi').
  destruct (split_colon s) as [|pre [|num [|x rest]]]; try reflexivity.
  destruct (find_prefix pre (oboPrefixes A)) as [i|].
  - destruct (stringToCVID num) as [v|]; [|reflexivity].
    pose proof (info_index_fst_odi (to_CVID (((Z.of_nat i * enumBlockSize_) mod size_t_modulus + v)
                  mod size_t_modulus)) st st' HO) as E.
    destruct (info_index _ st'), (info_index _ st). simpl in E |- *. congruence.
  - pose proof (info_index_fst_odi CVID_Unknown st st' HO) as E.
    destruct (info_index _ st'), (info_index _ st). simpl in E |- *. congruence.
Qed.

Lemma cvIsA_fst_odi A f c p st st' :
  initialized_ st = true -> only_default_insertions st st' ->
  option_map fst (cvIsA A f c p st') = option_map fst (cvIsA A f c p st).
Proof.
  intros Hi HO. assert (Hi' : initialized_ st' = true) by (destruct HO as [H _]; congruence).
  rewrite (cvIsA_pure A f c p st' Hi'), (cvIsA_pure A f c p st Hi).
  apply isA_pure_ext. apply odi_parentsOf. exact HO.
Qed.

(** At every state of a process the accessors return what they return on
    the first call. *)
Lemma reachable_results A st :
  reachable A st ->
  (forall c, fst (cvTermInfo A c st) = fst (cvTermInfo A c initialState)) /\
  (forall p, fst (cv A p st) = fst (cv A p initialState)) /\
  (forall s, fst (cvTermInfoStr A s st) = fst (cvTermInfoStr A s initialState)) /\
  (forall f c p, option_map fst (cvIsA A f c p st) = option_map fst (cvIsA A f c p initialState)) /\
  fst (cvids A st) = fst (cvids A initialState).
Proof.
  intros Hr. destruct (reachable_cases A st Hr) as [-> | [Hi HO]].
  { split; [|split; [|split; [|split]]]; intros; reflexivity. }
  assert (Hi0 : initialized_ (initialize A initialState) = true) by reflexivity.
  split; [|split; [|split; [|split]]].
  - intros c. rewrite (cvTermInfo_ensure A c initialState), ensure_init_initial.
    exact (cvTermInfo_fst_odi A c _ st Hi0 HO).
  - intros p. rewrite (cv_ensure A p initialState), ensure_init_initial.
    exact (cv_fst_odi A p _ st Hi0 HO).
  - intros s. rewrite (cvTermInfoStr_ensure A s initialState), ensure_init_initial.
    exact (cvTermInfoStr_fst_odi A s _ st Hi0 HO).
  - intros f c p. destruct (Z.eq_dec c p) as [<- | Hne].
    + destruct f as [|f]; [reflexivity|]. rewrite !cvIsA_refl. reflexivity.
    + rewrite (cvIsA_ensure A f c p initialState Hne), ensure_init_initial.
      exact (cvIsA_fst_odi A f c p _ st Hi0 HO).
  - unfold cvids. rewrite (ensure_init_id A st Hi). destruct HO as (_ & HV & _). exact HV.
Qed.

Lemma first_true_ex_true par p ps :
  (exists f, first_true (fun q => isA_pure par f q p) ps = Some true) <->
  exists pre q post, ps = pre ++ q :: post /\
    Forall (fun q' => exists g, isA_pure par g q' p = Some false) pre /\
    exists g, isA_pure par g q p = Some true.
Proof.
  split.
  - intros (f & H). induction ps as [|q0 ps IH]; simpl in H; [discriminate|].
    destruct (isA_pure par f q0 p) as [[|]|] eqn:E; [| |discriminate].
    + exists [], q0, ps. split; [reflexivity|]. split; [constructor | exists f; exact E].
    + destruct (IH H) as (pre & q & post & -> & Hpre & Hq).
      exists (q0 :: pre), q, post. split; [reflexivity|]. split; [|exact Hq].
      constructor; [exists f; exact E | exact Hpre].
  - intros (pre & q & post & -> & Hpre & g & Hg).
    induction Hpre as [|x l [gx Hx] _ [f Hf]].
    + exists g. simpl. rewrite Hg. reflexivity.
    + exists (Nat.max f gx). simpl.
      rewrite (isA_pure_mono_le par gx (Nat.max f gx) x p false ltac:(lia) Hx).
      exact (first_true_mono _ _ _ _
               (fun q' b' Hq => isA_pure_mono_le par f (Nat.max f gx) q' p b' ltac:(lia) Hq) Hf).
Qed.

Lemma first_true_ex_false par p ps :
  (exists f, first_true (fun q => isA_pure par f q p) ps = Some false) <->
  Forall (fun q => exists g, isA_pure par g q p = Some false) ps.
Proof.
  split.
  - intros (f & H). apply List.Forall_forall. intros q Hq. exists f.
    exact (first_true_false _ _ H q Hq).
  - induction 1 as [|x l [gx Hx] _ [f Hf]].
    + exists 0%nat. reflexivity.
    + exists (Nat.max f gx). simpl.
      rewrite (isA_pure_mono_le par gx (Nat.max f gx) x p false ltac:(lia) Hx).
      exact (first_true_mono _ _ _ _
               (fun q' b' Hq => isA_pure_mono_le par f (Nat.max f gx) q' p b' ltac:(lia) Hq) Hf).
Qed.

Lemma isA_pure_ex_unfold par c p b :
  c <> p ->
  ((exists f, isA_pure par f c p = Some b) <->
   exists f, first_true (fun q => isA_pure par f q p) (par c) = Some b).
Proof.
  intros Hne. assert (E : (c =? p) = false) by (apply Z.eqb_neq; exact Hne). split.
  - intros (f & H). destruct f as [|f]; simpl in H; [discriminate|].
    rewrite E in H. exists f. exact H.
  - intros (f & H). exists (S f). simpl. rewrite E. exact H.
Qed.

(** C2 (amended): cvIsA(x, x) returns true at once, from any state, with
    no lookup.  For child <> parent, cvIsA(child, parent) looks child up
    (which runs initialize() on the first call) and reads the direct is-a
    parents that the initialized state holds for child, in order: it
    returns true exactly when the call for some parent returns true and
    the calls for all the parents before it return false, and it returns
    false exactly when the calls for all the parents return false; no call
    returns both.  So, when the call returns, it is true for a direct
    parent and for a direct parent of a direct parent; every call returns
    when a rank decreases from child to parent.  There is no cycle guard. *)
Theorem cvIsA_when_returns (A : Artifact) (st : State) :
  (forall f x, cvIsA A (S f) x x st = Some (true, st)) /\
  (forall c, CVTermInfo.parentsIsA (fst (cvTermInfo A c st)) = parentsOf (ensure_init A st) c) /\
  (forall c p, c <> p ->
     (isA_returns A st c p true <->
        exists pre q post, parentsOf (ensure_init A st) c = pre ++ q :: post /\
          Forall (fun q' => isA_returns A (ensure_init A st) q' p false) pre /\
          isA_returns A (ensure_init A st) q p true) /\
     (isA_returns A st c p false <->
        Forall (fun q => isA_returns A (ensure_init A st) q p false)
          (parentsOf (ensure_init A st) c))) /\
  (forall c p, ~ (isA_returns A st c p true /\ isA_returns A st c p false)) /\
  (forall a b0 r, In b0 (parentsOf (ensure_init A st) a) -> isA_returns A st a b0 r -> r = true) /\
  (forall a b0 c r, In b0 (parentsOf (ensure_init A st) a) ->
     In c (parentsOf (ensure_init A st) b0) -> isA_returns A st a c r -> r = true) /\
  (forall rank : Z -> nat,
     (forall c q, In q (parentsOf (ensure_init A st) c) -> (rank q < rank c)%nat) ->
     forall c p, exists r, isA_returns A st c p r).
Proof.
  pose proof (ensure_init_initialized A st) as Hi.
  assert (Hret0 : forall c p b, isA_returns A (ensure_init A st) c p b <->
            exists f, isA_pure (parentsOf (ensure_init A st)) f c p = Some b)
    by (intros c p b; exact (isA_returns_pure A _ c p b Hi)).
  assert (Hret : forall c p b, c <> p -> (isA_returns A st c p b <->
            exists f, isA_pure (parentsOf (ensure_init A st)) f c p = Some b)).
  { intros c p b Hne. split; intros H.
    - apply Hret0. apply (isA_returns_ensure A st c p b Hne). exact H.
    - apply (isA_returns_ensure A st c p b Hne). apply Hret0. exact H. }
  split; [intros f x; apply cvIsA_refl|].
  split; [intros c; rewrite cvTermInfo_ensure; apply cvTermInfo_parents; exact Hi|].
  split; [|split; [|split; [|split]]].
  - intros c p Hne. split; split.
    + intros H. apply (Hret c p true Hne), (isA_pure_ex_unfold _ c p true Hne),
        first_true_ex_true in H.
      destruct H as (pre & q & post & Hps & Hpre & Hq).
      exists pre, q, post. split; [exact Hps|]. split.
      * eapply List.Forall_impl; [|exact Hpre]. intros q' Hq'. apply Hret0. exact Hq'.
      * apply Hret0. exact Hq.
    + intros (pre & q & post & Hps & Hpre & Hq).
      apply (Hret c p true Hne), (isA_pure_ex_unfold _ c p true Hne), first_true_ex_true.
      exists pre, q, post. split; [exact Hps|]. split.
      * eapply List.Forall_impl; [|exact Hpre]. intros q' Hq'. apply Hret0. exact Hq'.
      * apply Hret0. exact Hq.
    + intros H. apply (Hret c p false Hne), (isA_pure_ex_unfold _ c p false Hne),
        first_true_ex_false in H.
      eapply List.Forall_impl; [|exact H]. intros q Hq. apply Hret0. exact Hq.
    + intros H. apply (Hret c p false Hne), (isA_pure_ex_unfold _ c p false Hne),
        first_true_ex_false.
      eapply List.Forall_impl; [|exact H]. intros q Hq. apply Hret0. exact Hq.
  - intros c p [Ht Hf]. destruct (Z.eq_dec c p) as [<- | Hne].
    + pose proof (isA_returns_refl_value A st c false Hf). discriminate.
    + apply (Hret c p true Hne) in Ht as (f1 & H1).
      apply (Hret c p false Hne) in Hf as (f2 & H2).
      pose proof (isA_pure_mono_le _ f1 (Nat.max f1 f2) c p true ltac:(lia) H1).
      pose proof (isA_pure_mono_le _ f2 (Nat.max f1 f2) c p false ltac:(lia) H2).
      congruence.
  - intros a b0 r Hb Hr. destruct (Z.eq_dec a b0) as [<- | Hne].
    + exact (isA_returns_refl_value A st a r Hr).
    + apply (Hret a b0 r Hne) in Hr. exact (isA_pure_parent _ a b0 r Hb Hr).
  - intros a b0 c r Hb Hc Hr. destruct (Z.eq_dec a c) as [<- | Hne].
    + exact (isA_returns_refl_value A st a r Hr).
    + apply (Hret a c r Hne) in Hr as (f & Hf). destruct r; [reflexivity|].
      destruct f as [|f]; simpl in Hf; [discriminate|].
      rewrite (proj2 (Z.eqb_neq a c) Hne) in Hf.
      pose proof (first_true_false _ _ Hf b0 Hb) as Hb0. cbv beta in Hb0.
      exact (isA_pure_parent _ b0 c false Hc (ex_intro _ f Hb0)).
  - intros rank Hrank c p. destruct (Z.eq_dec c p) as [<- | Hne].
    + exists true, 1%nat, st. apply cvIsA_refl.
    + destruct (isA_pure_rank _ rank Hrank (S (rank c)) c p ltac:(lia)) as (r & Hr).
      exists r. apply (Hret c p r Hne). exists (S (rank c)). exact Hr.
Qed.

(** C3 (amended): at every state of a process, cvTermInfo(code) for a code
    with no row in the generated tables returns a default record (the one
    operator[] inserts), not the CVID_Unknown record; cvTermInfo(id) for a
    prefix:number id whose prefix names no loaded namespace returns the
    CVID_Unknown record; and the two records differ. *)
Theorem unknown_code_default_unmatched_prefix_sentinel
    (obos : list OBO.t) (A : Artifact) (st : State) (c : Z) (s pre num : string) :
  writeCpp obos = Some A -> reachable A st ->
  (~ In c (CVID_Unknown :: allCodes obos) -> fst (cvTermInfo A c st) = CVTermInfo.default) /\
  fst (cvTermInfo A CVID_Unknown st) = unknownInfo /\
  (split_colon s = [pre; num] -> find_prefix pre (oboPrefixes A) = None ->
     fst (cvTermInfoStr A s st) = inr (fst (cvTermInfo A CVID_Unknown st))) /\
  CVTermInfo.default <> unknownInfo.
Proof.
  intros H Hr. destruct (reachable_results A st Hr) as (Hc & _ & Hs & _).
  rewrite !Hc, Hs. exact (unknown_code_first_call obos A c s pre num H).
Qed.

Lemma unknown_code_default_unmatched_prefix_sentinel_witness :
  writeCpp ex_obos = Some ex_artifact /\
  reachable ex_artifact (snd (cvTermInfo ex_artifact 7 initialState)) /\
  fst (cvTermInfoStr ex_artifact "XX:0000001" (snd (cvTermInfo ex_artifact 7 initialState)))
  = inr (fst (cvTermInfo ex_artifact CVID_Unknown (snd (cvTermInfo ex_artifact 7 initialState)))).
Proof.
  assert (H : writeCpp ex_obos = Some ex_artifact) by (vm_compute; reflexivity).
  assert (Hr : reachable ex_artifact (snd (cvTermInfo ex_artifact 7 initialState)))
    by (apply reach_cvTermInfo, reach_initial).
  split; [exact H|]. split; [exact Hr|].
  apply (proj1 (proj2 (proj2 (unknown_code_default_unmatched_prefix_sentinel
           ex_obos ex_artifact _ 7 "XX:0000001" "XX" "0000001" H Hr))));
    vm_compute; reflexivity.
Defined.

(** C6 (amended): at every state of a process, cvids() returns
    CVID_Unknown followed by every term's code, one per term, file by file
    in input order and term by term in file order; synonyms have no entry. *)
Theorem cvids_unknown_then_all_codes (obos : list OBO.t) (A : Artifact) (st : State) :
  writeCpp obos = Some A -> reachable A st ->
  fst (cvids A st) = CVID_Unknown :: allCodes obos.
Proof.
  intros H Hr. destruct (reachable_results A st Hr) as (_ & _ & _ & _ & Hv).
  rewrite Hv. exact (cvids_first_call obos A H).
Qed.

Lemma cvids_unknown_then_all_codes_witness :
  writeCpp ex_obos = Some ex_artifact /\
  reachable ex_artifact (snd (cv ex_artifact "XX" (snd (cvTermInfo ex_artifact 7 initialState)))) /\
  fst (cvids ex_artifact (snd (cv ex_artifact "XX" (snd (cvTermInfo ex_artifact 7 initialState)))))
  = CVID_Unknown :: allCodes ex_obos.
Proof.
  assert (H : writeCpp ex_obos = Some ex_artifact) by (vm_compute; reflexivity).
  assert (Hr : reachable ex_artifact
                 (snd (cv ex_artifact "XX" (snd (cvTermInfo ex_artifact 7 initialState)))))
    by (apply reach_cv, reach_cvTermInfo, reach_initial).
  split; [exact H|]. split; [exact Hr|].
  exact (cvids_unknown_then_all_codes ex_obos ex_artifact _ H Hr).
Defined.

(** C8 (amended): initialize() runs on the first accessor call other than
    cvIsA(x, x), which returns true with no lookup, and never again: every
    state of a process is the initial one or an initialized state that
    differs from the one initialize() builds only by default entries.  On
    an initialized state no accessor changes initialized_ or cvids_ or an
    existing entry of infoMap_ or cvMap_; operator[] adds a default entry
    under an absent key; cvids() and lookups of present keys change
    nothing. *)
Theorem accessors_insert_only_defaults (A : Artifact) :
  initialized_ (initialize A initialState) = true /\
  (forall prefix, only_default_insertions (initialize A initialState)
                    (snd (cv A prefix initialState))) /\
  (forall c, only_default_insertions (initialize A initialState)
               (snd (cvTermInfo A c initialState))) /\
  (forall s, only_default_insertions (initialize A initialState)
               (snd (cvTermInfoStr A s initialState))) /\
  snd (cvids A initialState) = initialize A initialState /\
  (forall f c p b st', c <> p -> cvIsA A f c p initialState = Some (b, st') ->
     only_default_insertions (initialize A initialState) st') /\
  (forall f x st, cvIsA A (S f) x x st = Some (true, st)) /\
  (forall st, reachable A st ->
     st = initialState \/
     (initialized_ st = true /\ only_default_insertions (initialize A initialState) st)) /\
  (forall st, initialized_ st = true ->
     (forall prefix, only_default_insertions st (snd (cv A prefix st))) /\
     (forall c, only_default_insertions st (snd (cvTermInfo A c st))) /\
     (forall s, only_default_insertions st (snd (cvTermInfoStr A s st))) /\
     (forall f c p b st', cvIsA A f c p st = Some (b, st') -> only_default_insertions st st') /\
     cvids A st = (cvids_ st, st) /\
     (forall c i, infoMap_ st !! c = Some i -> cvTermInfo A c st = (i, st)) /\
     (forall prefix v, cvMap_ st !! prefix = Some v -> cv A prefix st = (v, st))).
Proof.
  split; [reflexivity|].
  split; [intros p; apply cv_step_odi|].
  split; [intros c; apply cvTermInfo_step_odi|].
  split; [intros s; apply cvTermInfoStr_step_odi|].
  split; [reflexivity|].
  split.
  { intros f c p b st' Hne H.
    destruct (cvIsA_state A f c p _ b st' H) as [[E _] | [_ HO]]; [contradiction | exact HO]. }
  split; [intros f x st; apply cvIsA_refl|].
  split; [exact (reachable_cases A)|].
  intros st Hi.
  split; [intros p; exact (cv_odi A p st Hi)|].
  split; [intros c; exact (cvTermInfo_odi A c st Hi)|].
  split; [intros s; exact (cvTermInfoStr_odi A s st Hi)|].
  split; [intros f c p b st' H; exact (cvIsA_odi A f c p st b st' Hi H)|].
  split; [unfold cvids; rewrite (ensure_init_id A st Hi); reflexivity|].
  split.
  - intros c i Hc. unfold cvTermInfo. rewrite (ensure_init_id A st Hi).
    apply info_index_present. exact Hc.
  - intros p v Hp. unfold cv. rewrite (ensure_init_id A st Hi). cbv zeta. rewrite Hp.
    reflexivity.
Qed.
